(** * train.py: the training driver of tensorflow-wavenet

    A shallow embedding of the parts of [train.py] that decide how
    gradients are averaged over GPU towers, how the log directories are
    validated, how the step counter is restored and how checkpoints are
    written by the standalone and the distributed training loops.

    Python integers are [Z]; strings are [string]; [None] is [option];
    a raised exception is the [Raise] case of [result]; the calls into
    TensorFlow that have a visible effect are recorded as [event]s. *)

From Stdlib Require Import ZArith QArith List String Ascii Bool Lia.
From Stdlib Require Import DecimalString DecimalPos DecimalZ.
From Stdlib Require Import Sorted.
Import ListNotations.

Local Open Scope Z_scope.
Local Open Scope string_scope.

Set Implicit Arguments.

(** ** Python exceptions and results *)

Inductive exn : Type :=
| NameError (name : string)          (* also UnboundLocalError *)
| ValueError (msg : string)
| ZeroDivisionError
| IndexError
| KeyboardInterrupt
| RuntimeError (msg : string).       (* any error raised inside TensorFlow *)

Inductive result (A : Type) : Type :=
| Ok (a : A)
| Raise (e : exn).

Arguments Ok {A} a.
Arguments Raise {A} e.

Definition is_ok {A} (r : result A) : bool :=
  match r with Ok _ => true | Raise _ => false end.

(** ** Gradient averaging over towers ([build_multigpu], lines 237-258) *)

Module Tower.

(** A gradient tensor, flattened to the list of its components. Every
    gradient of one variable has the shape of that variable, so the
    tensors stacked by [tf.concat] below have equal lengths. *)
Definition tensor := list Q.

(** A trainable variable, identified by its name. *)
Definition var := string.

(** One entry of [optimizer.compute_gradients]: the gradient, or [None]
    when the loss does not depend on the variable. *)
Definition grad_and_var := (option tensor * var)%type.

(** [zip] applied to the unpacked [tower_grads]: the i-th tuple holds
    the i-th entry of every tower; the result is as long as the shortest
    tower, and [zip()] of no tower at all is empty. *)
Fixpoint heads {A} (ls : list (list A)) : option (list A) :=
  match ls with
  | [] => Some []
  | [] :: _ => None
  | (x :: _) :: rest =>
      match heads rest with
      | Some hs => Some (x :: hs)
      | None => None
      end
  end.

Definition tails {A} (ls : list (list A)) : list (list A) :=
  map (@tl A) ls.

Fixpoint zip_star_fuel {A} (fuel : nat) (ls : list (list A)) : list (list A) :=
  match fuel with
  | O => []
  | S fuel' =>
      match heads ls with
      | Some hs => hs :: zip_star_fuel fuel' (tails ls)
      | None => []
      end
  end.

Definition zip_star {A} (ls : list (list A)) : list (list A) :=
  match ls with
  | [] => []
  | l :: _ => zip_star_fuel (List.length l) ls
  end.

(** The inner loop: [tf.expand_dims(g, 0)] of every gradient that is not
    [None], in tower order. A tensor with a new leading axis of size one
    is a one-row matrix. *)
Definition tf_expand_dims0 (g : tensor) : list tensor := [g].

Fixpoint collect_grads (grad_and_vars : list grad_and_var) : list (list tensor) :=
  match grad_and_vars with
  | [] => []
  | (None, _) :: rest => collect_grads rest
  | (Some g, _) :: rest => tf_expand_dims0 g :: collect_grads rest
  end.

(** [tf.concat(0, grads)]: the rows of all the matrices, in order. *)
Definition tf_concat0 (grads : list (list tensor)) : list tensor :=
  List.concat grads.

Definition Qsum (l : list Q) : Q := fold_right Qplus 0%Q l.

(** [tf.reduce_mean(grad, 0)]: component j of the result is the mean of
    component j of the rows. *)
Definition tf_reduce_mean0 (rows : list tensor) : tensor :=
  match rows with
  | [] => []
  | r :: _ =>
      map (fun j => (Qsum (map (fun row => nth j row 0%Q) rows)
                     / inject_Z (Z.of_nat (List.length rows)))%Q)
          (seq 0 (List.length r))
  end.

(** The outer loop. The local [v] is assigned at line 253 only, after a
    tuple with at least one gradient; line 248 reads it for a tuple with
    none. [v = None] is the unbound local. *)
Fixpoint average_loop (tuples : list (list grad_and_var)) (v : option var)
    (average_grads : list grad_and_var) : result (list grad_and_var) :=
  match tuples with
  | [] => Ok average_grads
  | grad_and_vars :: rest =>
      let grads := collect_grads grad_and_vars in
      if (List.length grads =? 0)%nat then
        match v with
        | None => Raise (NameError "v")
        | Some v0 => average_loop rest v (average_grads ++ [(None, v0)])%list
        end
      else
        let grad := tf_reduce_mean0 (tf_concat0 grads) in
        match grad_and_vars with
        | [] => Raise IndexError
        | (_, v') :: _ =>
            average_loop rest (Some v')
              (average_grads ++ [(Some grad, v')])%list
        end
  end.

Definition average_gradients (tower_grads : list (list grad_and_var))
  : result (list grad_and_var) :=
  average_loop (zip_star tower_grads) None [].

(** What [optimizer.apply_gradients] updates: TensorFlow skips the pairs
    whose gradient is [None]. *)
Definition applied_updates (average_grads : list grad_and_var)
  : list (tensor * var) :=
  flat_map (fun gv => match fst gv with
                      | Some g => [(g, snd gv)]
                      | None => []
                      end) average_grads.

(** The gradients tower by tower for the parameter at position [i]. *)
Definition column (tower_grads : list (list grad_and_var)) (i : nat)
  : list (option grad_and_var) :=
  map (fun tower => nth_error tower i) tower_grads.

(** The contributions for the parameter at position [i]: the gradients
    of the towers that have one, in tower order. *)
Definition contributions (tower_grads : list (list grad_and_var)) (i : nat)
  : list tensor :=
  flat_map (fun tower => match nth_error tower i with
                         | Some (Some g, _) => [g]
                         | _ => []
                         end) tower_grads.

End Tower.

(** ** Floats, as far as the script compares them *)

Inductive pyfloat : Type :=
| Finite (q : Q)
| Infinity (negative : bool)
| NaN.

(** [a > b] on floats: false as soon as one side is not a number. *)
Definition float_gt (a b : pyfloat) : bool :=
  match a, b with
  | NaN, _ | _, NaN => false
  | Finite x, Finite y => negb (Qle_bool x y)
  | Finite _, Infinity negative => negative
  | Infinity negative, Finite _ => negb negative
  | Infinity na, Infinity nb => negb na && nb
  end.

(** The arguments [AudioReader] is constructed with; a
    [silence_threshold] of [None] is what turns the trimming off. *)
Record AudioReader : Type := {
  reader_audio_dir : string;
  reader_sample_rate : Z;
  reader_sample_size : Z;
  reader_random_crop : bool;
  reader_silence_threshold : option pyfloat
}.

(** ** Effects *)

(** The calls with an effect outside the process, in the order the
    script makes them. *)
Inductive event : Type :=
| Print (msg : string)
| PrintProgress (step : Z)               (* the 'step N - loss = ...' line *)
| OpenFile (path : string)
| MakeDirs (path : string)
| NewCoordinator
| NewAudioReader (reader : AudioReader)
| BuildGraph
| NewSummaryWriter (logdir : string)
| NewSession
| NewServer (job_name : string) (task_index : Z)
| ServerJoin
| NewSupervisor (is_chief : bool) (logdir : string)
| GetCheckpointState (dir : string)
| SaverRestore (path : string)
| StartQueueRunners
| ReaderStartThreads
| StartChiefQueueRunner
| RunInitTokenOp
| SessRun (step : Z)                     (* the local step at the call *)
| AddSummary (step : Z)
| AddRunMetadata (step : Z)
| WriteTimeline (path : string)
| SaverSave (checkpoint_path : string) (step : Z)
| CoordRequestStop
| CoordJoin
| SupervisorStop.

(** A computation: the events it made, then its value or the exception
    that ended it. *)
Definition io (A : Type) : Type := (list event * result A)%type.

Definition ret {A} (a : A) : io A := ([], Ok a).

Definition bind {A B} (m : io A) (f : A -> io B) : io B :=
  match m with
  | (t, Ok a) => let (t', r) := f a in ((t ++ t')%list, r)
  | (t, Raise e) => (t, Raise e)
  end.

Definition emit (e : event) : io unit := ([e], Ok tt).

Definition raise {A} (e : exn) : io A := ([], Raise e).

Definition lift {A} (r : result A) : io A := ([], r).

Definition events {A} (m : io A) : list event := fst m.

Definition outcome {A} (m : io A) : result A := snd m.

Declare Scope io_scope.
Delimit Scope io_scope with io.
Notation "x <- m ;; k" := (bind m (fun x => k))
  (at level 61, m at next level, right associativity) : io_scope.
Notation "m ;; k" := (bind m (fun _ => k))
  (at level 61, right associativity) : io_scope.
Local Open Scope io_scope.

(** ** Python strings and paths *)

Definition startswith (c : ascii) (s : string) : bool :=
  match s with
  | String a _ => Ascii.eqb a c
  | EmptyString => false
  end.

Fixpoint endswith (c : ascii) (s : string) : bool :=
  match s with
  | EmptyString => false
  | String a EmptyString => Ascii.eqb a c
  | String _ rest => endswith c rest
  end.

(** One step of [posixpath.join]. *)
Definition path_join2 (path b : string) : string :=
  if startswith "/" b then b
  else if (path =? "") || endswith "/" path then path ++ b
  else path ++ "/" ++ b.

Definition path_join (a : string) (p : list string) : string :=
  fold_left path_join2 p a.

(** [s.split(sep)] for a separator of one character: never empty. *)
Fixpoint split (sep : ascii) (s : string) : list string :=
  match s with
  | EmptyString => [EmptyString]
  | String a rest =>
      if Ascii.eqb a sep then EmptyString :: split sep rest
      else match split sep rest with
           | [] => [String a EmptyString]
           | w :: ws => String a w :: ws
           end
  end.

(** [l[-1]] of a list that [split] returned. *)
Definition last_item (l : list string) : string := List.last l EmptyString.

(** Truth value of an argparse string option: [None] and the empty
    string are false. *)
Definition truthy (o : option string) : bool :=
  match o with
  | Some s => negb (s =? "")
  | None => false
  end.

(** [int(s)] for a decimal literal, as Python 2 reads it: white space
    around it is dropped, one sign may lead, and at least one decimal
    digit must follow and nothing else. Anything else is a
    [ValueError]. *)
Definition is_space (a : ascii) : bool :=
  let n := nat_of_ascii a in
  ((9 <=? n) && (n <=? 13) || (n =? 32))%nat.

Fixpoint lstrip (s : string) : string :=
  match s with
  | String a rest => if is_space a then lstrip rest else s
  | EmptyString => EmptyString
  end.

Fixpoint rstrip (s : string) : string :=
  match s with
  | EmptyString => EmptyString
  | String a rest =>
      match rstrip rest with
      | EmptyString => if is_space a then EmptyString else String a EmptyString
      | r => String a r
      end
  end.

(** The digits: a string that is not empty and holds decimal digits
    only; leading zeros are allowed. *)
Definition unsigned_literal (s : string) : option Z :=
  option_map Z.of_uint (NilZero.uint_of_string s).

Definition py_int (s : string) : result Z :=
  let body := rstrip (lstrip s) in
  let parsed :=
    match body with
    | String "+" rest => unsigned_literal rest
    | String "-" rest => option_map Z.opp (unsigned_literal rest)
    | _ => unsigned_literal body
    end in
  match parsed with
  | Some n => Ok n
  | None => Raise (ValueError "invalid literal for int() with base 10")
  end.

(** [str(n)] and the [%d] format of an integer. *)
Definition py_str (n : Z) : string := NilZero.string_of_int (Z.to_int n).

(** ** Constants and arguments (lines 22-105) *)

Definition LOGDIR_ROOT : string := "./logdir".
Definition STANDALONE : string := "standalone".

(** The double nearest to 0.001. *)
Definition EPSILON : pyfloat := Finite (1152921504606847 # 1152921504606846976).

Module Args.

(** The namespace [parser.parse_args()] returns. *)
Record t : Type := mk {
  batch_size : Z;
  data_dir : string;
  store_metadata : bool;
  logdir : option string;
  logdir_root : option string;
  restore_from : option string;
  checkpoint_every : Z;
  num_steps : Z;
  learning_rate : pyfloat;
  wavenet_params : string;
  sample_size : Z;
  l2_regularization_strength : pyfloat;
  silence_threshold : pyfloat;
  optimizer : string;
  momentum : pyfloat;
  num_gpus : Z;
  random_crop : bool;
  ps_hosts : string;
  worker_hosts : string;
  job_name : string;
  task_index : Z
}.

End Args.

(** ** Directories (lines 141-184) *)

(** [STARTED_DATESTRING] is read off the clock when the module is
    loaded; here it is an argument. *)
Definition get_default_logdir (STARTED_DATESTRING logdir_root : string) : string :=
  path_join logdir_root ["train"; STARTED_DATESTRING].

Record directories : Type := {
  dir_logdir : string;
  dir_logdir_root : option string;
  dir_restore_from : string
}.

Definition logdir_and_logdir_root_msg : string :=
  "--logdir and --logdir_root cannot be specified at the same time.".

Definition newline : string := String "010" EmptyString.

Definition logdir_and_restore_from_msg : string :=
  "--logdir and --restore_from cannot be specified at the same "
  ++ "time. This is to keep your previous model from unexpected "
  ++ "overwrites." ++ newline
  ++ "Use --logdir_root to specify the root of the directory which "
  ++ "will be automatically created with current date and time, or use "
  ++ "only --logdir to just continue the training from the last "
  ++ "checkpoint.".

Definition validate_directories (STARTED_DATESTRING : string) (args : Args.t)
  : io directories :=
  (* Validation *)
  if truthy (Args.logdir args) && truthy (Args.logdir_root args) then
    raise (ValueError logdir_and_logdir_root_msg)
  else if truthy (Args.logdir args) && truthy (Args.restore_from args) then
    raise (ValueError logdir_and_restore_from_msg)
  else
    (* Arrangement *)
    let logdir_root :=
      match Args.logdir_root args with
      | None => LOGDIR_ROOT
      | Some r => r
      end in
    logdir <- match Args.logdir args with
              | None =>
                  let logdir := get_default_logdir STARTED_DATESTRING logdir_root in
                  emit (Print ("Using default logdir: " ++ logdir)) ;;
                  ret logdir
              | Some l => ret l
              end ;;
    let restore_from :=
      match Args.restore_from args with
      | None => logdir
      | Some r => r
      end in
    ret {| dir_logdir := logdir;
           dir_logdir_root := Args.logdir_root args;
           dir_restore_from := restore_from |}.

(** ** The world outside the script *)

(** The one entry of the JSON parameter file the script reads itself;
    the others are handed to [WaveNetModel] as they are. *)
Record wavenet_params_t : Type := {
  sample_rate : Z
}.

Record world : Type := {
  (** the clock at load time, formatted *)
  STARTED_DATESTRING : string;
  (** [os.path.exists] *)
  path_exists : string -> bool;
  (** [tf.train.get_checkpoint_state(dir)]: the [model_checkpoint_path]
      of the state found, [None] without a checkpoint *)
  get_checkpoint_state : string -> result (option string);
  (** [saver.restore(sess, path)] *)
  saver_restore : string -> result unit;
  (** [json.load] of the opened parameter file *)
  json_load : string -> result wavenet_params_t;
  (** [optimizer.compute_gradients] on the tower of a device *)
  compute_gradients : Z -> list Tower.grad_and_var;
  (** standalone: how [sess.run] of a step ends *)
  sess_run : Z -> result unit;
  (** distributed: how the successive [sess.run] calls end, each with
      the global step it fetched; once the list is used up
      [sv.should_stop()] is true *)
  replica_runs : list (result Z)
}.

(** ** Checkpoints (lines 108-138) *)

(** [save] when every call in it returns. The call that an exception
    leaves part-way is [Fallible.save] below. *)
Definition save (w : world) (logdir : string) (step : Z) : io unit :=
  let model_name := "model.ckpt" in
  let checkpoint_path := path_join logdir [model_name] in
  emit (Print ("Storing checkpoint to " ++ logdir ++ " ...")) ;;
  (if path_exists w logdir then ret tt else emit (MakeDirs logdir)) ;;
  emit (SaverSave checkpoint_path step) ;;
  emit (Print " Done.").

Definition load (w : world) (logdir : string) : io (option Z) :=
  emit (Print ("Trying to restore saved checkpoints from " ++ logdir ++ " ...")) ;;
  emit (GetCheckpointState logdir) ;;
  ckpt <- lift (get_checkpoint_state w logdir) ;;
  match ckpt with
  | Some model_checkpoint_path =>
      emit (Print ("  Checkpoint found: " ++ model_checkpoint_path)) ;;
      global_step <- lift (py_int (last_item (split "-"
                             (last_item (split "/" model_checkpoint_path))))) ;;
      emit (Print ("  Global step was: " ++ py_str global_step)) ;;
      emit (Print "  Restoring...") ;;
      emit (SaverRestore model_checkpoint_path) ;;
      lift (saver_restore w model_checkpoint_path) ;;
      emit (Print " Done.") ;;
      ret (Some global_step)
  | None =>
      emit (Print " No checkpoint found.") ;;
      ret None
  end.

(** The name [saver.save(sess, checkpoint_path, global_step=step)] gives
    the snapshot, which is what [get_checkpoint_state] reports later. *)
Definition snapshot_path (logdir : string) (step : Z) : string :=
  path_join logdir ["model.ckpt"] ++ "-" ++ py_str step.

(** ** Building the graph (lines 211-284) *)

(** [xrange(n)] and [range(a, b)]. *)
Definition range (a b : Z) : list Z :=
  map (fun k => a + Z.of_nat k) (seq 0 (Z.to_nat (b - a))).

Definition xrange (n : Z) : list Z := range 0 n.

(** The training operation, represented by the gradients it applies. *)
Definition build_singlegpu (w : world) : io (list Tower.grad_and_var) :=
  emit BuildGraph ;;
  ret (compute_gradients w 0).

Definition build_multigpu (w : world) (args : Args.t)
  : io (list Tower.grad_and_var) :=
  let tower_grads := map (compute_gradients w) (xrange (Args.num_gpus args)) in
  emit BuildGraph ;;
  lift (Tower.average_gradients tower_grads).

Definition get_tower (w : world) (args : Args.t) : io (list Tower.grad_and_var) :=
  if (Args.num_gpus args >? 1)%Z then build_multigpu w args
  else build_singlegpu w.

(** Line 273: the threshold with values near zero replaced by [None]. *)
Definition trimmed_silence_threshold (args : Args.t) : option pyfloat :=
  if float_gt (Args.silence_threshold args) EPSILON
  then Some (Args.silence_threshold args)
  else None.

Definition create_inputs (args : Args.t) (wavenet_params : wavenet_params_t)
  : io AudioReader :=
  emit NewCoordinator ;;
  let silence_threshold := trimmed_silence_threshold args in
  let reader :=
    {| reader_audio_dir := Args.data_dir args;
       reader_sample_rate := sample_rate wavenet_params;
       reader_sample_size := Args.sample_size args;
       reader_random_crop := Args.random_crop args;
       reader_silence_threshold := Some (Args.silence_threshold args) |} in
  emit (NewAudioReader reader) ;;
  ret reader.

(** ** Standalone training (lines 416-490) *)

(** The diagnostic of line 442. *)
Definition restore_failed_msg : string :=
  "Something went wrong while restoring checkpoint. "
  ++ "We will terminate training to avoid accidentally "
  ++ "overwriting the previous model.".

(** The runs of [standalone] in which each call of [save] returns;
    those in which an exception leaves one are in [Fallible] below. *)
Module Standalone.

(** The two locals of [standalone] that the clean-up reads; [step] is
    unbound until the [for] statement assigns it. *)
Record locals : Type := {
  step : option Z;
  last_saved_step : Z
}.

(** One pass through the body of the loop (lines 453-480). The value
    tells whether the checkpoint of line 479 was written. *)
Definition loop_body (w : world) (args : Args.t) (logdir : string) (step : Z)
  : io bool :=
  (if Args.store_metadata args && (step mod 50 =? 0)%Z then
     emit (Print "Storing metadata") ;;
     emit (SessRun step) ;;
     lift (sess_run w step) ;;
     emit (AddSummary step) ;;
     emit (AddRunMetadata step) ;;
     let timeline_path := path_join logdir ["timeline.trace"] in
     emit (OpenFile timeline_path) ;;
     emit (WriteTimeline timeline_path)
   else
     emit (SessRun step) ;;
     lift (sess_run w step) ;;
     emit (AddSummary step)) ;;
  emit (PrintProgress step) ;;
  if (Args.checkpoint_every args =? 0)%Z then raise ZeroDivisionError
  else if (step mod Args.checkpoint_every args =? 0)%Z then
    save w logdir step ;;
    ret true
  else ret false.

(** The [for] statement over the steps still to run: the events, the
    locals when it is left, and the exception that left it, if any. *)
Fixpoint for_loop (w : world) (args : Args.t) (logdir : string)
    (steps : list Z) (l : locals) : list event * locals * option exn :=
  match steps with
  | [] => ([], l, None)
  | s :: rest =>
      let l1 := {| step := Some s; last_saved_step := last_saved_step l |} in
      match loop_body w args logdir s with
      | (t, Ok saved) =>
          let l2 := if saved
                    then {| step := Some s; last_saved_step := s |}
                    else l1 in
          let '(t', l3, e) := for_loop w args logdir rest l2 in
          ((t ++ t')%list, l3, e)
      | (t, Raise e) => (t, l1, Some e)
      end
  end.

(** The second [try] statement (lines 450-490), with the events of the
    loop, of the [except] clause and of the [finally] clause apart. *)
Record run : Type := {
  loop_events : list event;
  except_events : list event;
  finally_events : list event;
  final_locals : locals;
  run_outcome : result unit
}.

Definition train (w : world) (args : Args.t) (logdir : string)
    (saved_global_step : Z) : run :=
  let '(t, l, e) :=
    for_loop w args logdir
      (range (saved_global_step + 1) (Args.num_steps args))
      {| step := None; last_saved_step := saved_global_step |} in
  (* except KeyboardInterrupt *)
  let '(t_except, pending) :=
    match e with
    | Some KeyboardInterrupt => ([Print ""], None)
    | _ => ([], e)
    end in
  (* finally *)
  match step l with
  | None =>
      {| loop_events := t; except_events := t_except; finally_events := [];
         final_locals := l; run_outcome := Raise (NameError "step") |}
  | Some s =>
      let t_save := if (s >? last_saved_step l)%Z
                    then events (save w logdir s) else [] in
      {| loop_events := t; except_events := t_except;
         finally_events := (t_save ++ [CoordRequestStop; CoordJoin])%list;
         final_locals := l;
         run_outcome := match pending with
                        | Some e' => Raise e'
                        | None => Ok tt
                        end |}
  end.

Definition run_io (r : run) : io unit :=
  ((loop_events r ++ except_events r ++ finally_events r)%list, run_outcome r).

(** The first [try] statement (lines 434-445). *)
Definition restore_step (w : world) (restore_from : string)
    (is_overwritten_training : bool) : io Z :=
  match load w restore_from with
  | (t, Ok saved_global_step) =>
      (t, Ok (match saved_global_step with
              | Some s => if is_overwritten_training then -1 else s
              | None => -1
              end))
  | (t, Raise e) =>
      ((t ++ [Print restore_failed_msg])%list, Raise e)
  end.

Definition standalone (w : world) (args : Args.t)
    (wavenet_params : wavenet_params_t) (logdir : string)
    (logdir_root : option string) (restore_from : string)
    (is_overwritten_training : bool) : io unit :=
  create_inputs args wavenet_params ;;
  get_tower w args ;;
  emit (NewSummaryWriter logdir) ;;
  emit NewSession ;;
  saved_global_step <- restore_step w restore_from is_overwritten_training ;;
  emit StartQueueRunners ;;
  emit ReaderStartThreads ;;
  run_io (train w args logdir saved_global_step).

End Standalone.

(** ** Distributed training (lines 313-406) *)

Module Distributed.

(** The [while] statement of a worker: the events, the local [step]
    when it is left, and the exception that left it, if any. *)
Fixpoint while_loop (args : Args.t) (is_chief : bool)
    (runs : list (result Z)) (step : Z) : list event * Z * option exn :=
  match runs with
  | [] => ([], step, None)
  | r :: rest =>
      if (step <=? Args.num_steps args)%Z then
        match r with
        | Ok global_step =>
            let t := (SessRun step
                      :: (if is_chief then [AddSummary global_step] else [])
                      ++ [PrintProgress global_step])%list in
            let '(t', step', e) := while_loop args is_chief rest global_step in
            ((t ++ t')%list, step', e)
        | Raise e => ([SessRun step], step, Some e)
        end
      else ([], step, None)
  end.

Definition worker (w : world) (args : Args.t)
    (wavenet_params : wavenet_params_t) (logdir : string) : io unit :=
  create_inputs args wavenet_params ;;
  emit BuildGraph ;;
  let is_chief := (Args.task_index args =? 0)%Z in
  emit (NewSupervisor is_chief logdir) ;;
  (* try *)
  emit StartQueueRunners ;;
  emit ReaderStartThreads ;;
  (if is_chief then
     emit StartChiefQueueRunner ;;
     emit RunInitTokenOp ;;
     emit (NewSummaryWriter logdir)
   else ret tt) ;;
  let '(t, step, e) := while_loop args is_chief (replica_runs w) 0 in
  (* except KeyboardInterrupt *)
  let '(t_except, pending) :=
    match e with
    | Some KeyboardInterrupt => ([Print ""], None)
    | _ => ([], e)
    end in
  (* finally *)
  ((t ++ t_except)%list, Ok tt) ;;
  save w logdir step ;;
  emit CoordRequestStop ;;
  emit CoordJoin ;;
  emit SupervisorStop ;;
  match pending with
  | Some e' => raise e'
  | None => ret tt
  end.

(** [server.join()] of a parameter server does not return; the model
    records the call and ends there. *)
Definition distributed (w : world) (args : Args.t)
    (wavenet_params : wavenet_params_t) (logdir : string) : io unit :=
  emit (NewServer (Args.job_name args) (Args.task_index args)) ;;
  if Args.job_name args =? "ps" then emit ServerJoin
  else if Args.job_name args =? "worker" then worker w args wavenet_params logdir
  else ret tt.

End Distributed.

(** ** The entry point (lines 286-310) *)

Definition main (w : world) (args : Args.t) : io unit :=
  match validate_directories (STARTED_DATESTRING w) args with
  | (t, Raise (ValueError e)) =>
      (t, Ok tt) ;;
      emit (Print "Some arguments are wrong:") ;;
      emit (Print e)
  | (t, Raise e) => (t, Raise e)
  | (t, Ok directories) =>
      (t, Ok tt) ;;
      let logdir := dir_logdir directories in
      let logdir_root := dir_logdir_root directories in
      let restore_from := dir_restore_from directories in
      let is_overwritten_training := negb (logdir =? restore_from) in
      emit (OpenFile (Args.wavenet_params args)) ;;
      wavenet_params <- lift (json_load w (Args.wavenet_params args)) ;;
      if negb (Args.job_name args =? STANDALONE) then
        Distributed.distributed w args wavenet_params logdir
      else
        Standalone.standalone w args wavenet_params logdir logdir_root
          restore_from is_overwritten_training
  end.

(** ** Standalone training when [save] and the statements of the loop
       can fail (lines 108-118, 450-490) *)

Module Fallible.

(** The stretches of the second [try] statement that an exception can
    leave part-way, besides the call of [sess.run] and the modulo of
    line 478, whose failures [sess_run] and [checkpoint_every] decide:
    the statements that follow [sess.run] in its branch (lines 463-469,
    or 472); the print of lines 474-476; the periodic [save] of line
    479; the final [save] of line 488. *)
Inductive site : Type := AfterRun | Progress | Periodic | Final.

(** How a stretch ends: it returns; or an exception leaves it (raised
    by one of its calls, or a KeyboardInterrupt arriving inside, or
    arriving once its last call has returned and before the statement
    that follows). [done] counts the effects of the stretch that have
    taken place by then, in the order of the source. *)
Inductive ending : Type :=
| Returns
| Raises (done : nat) (e : exn).

Definition returns (o : ending) : bool :=
  match o with Returns => true | Raises _ _ => false end.

(** How the stretch at a site ends for a step. *)
Definition faults : Type := site -> Z -> ending.

(** Nothing fails but [sess.run] and the modulo. *)
Definition no_fault : faults := fun _ _ => Returns.

(** A stretch left as [o] says: its effects are cut where the exception
    leaves. An exception of the stretch's own, raised before that
    point, comes first. *)
Definition interruptible {A} (o : ending) (m : io A) : io A :=
  match o with
  | Returns => m
  | Raises done e =>
      if (List.length (events m) <=? done)%nat && negb (is_ok (outcome m))
      then m
      else (firstn done (events m), Raise e)
  end.

(** [save] (lines 108-118) left at any point. Its effects are, in the
    order of lines 111-118: the first print, the directory made when it
    was missing, the snapshot written by [saver.save], the last
    print. *)
Definition save (w : world) (o : ending) (logdir : string) (step : Z)
  : io unit :=
  interruptible o (save w logdir step).

(** Whether the snapshot has been written when the call of [save]
    ends: the write is the second effect of [save] where the directory
    exists, the third where it has to be made. *)
Definition writes (w : world) (logdir : string) (o : ending) : bool :=
  match o with
  | Returns => true
  | Raises done _ => ((if path_exists w logdir then 2 else 3) <=? done)%nat
  end.

(** One pass through the body of the loop (lines 453-480): as
    [Standalone.loop_body], with the stretches that can be left. *)
Definition loop_body (w : world) (f : faults) (args : Args.t)
    (logdir : string) (step : Z) : io bool :=
  (if Args.store_metadata args && (step mod 50 =? 0)%Z then
     emit (Print "Storing metadata") ;;
     emit (SessRun step) ;;
     lift (sess_run w step) ;;
     interruptible (f AfterRun step)
       (emit (AddSummary step) ;;
        emit (AddRunMetadata step) ;;
        let timeline_path := path_join logdir ["timeline.trace"] in
        emit (OpenFile timeline_path) ;;
        emit (WriteTimeline timeline_path))
   else
     emit (SessRun step) ;;
     lift (sess_run w step) ;;
     interruptible (f AfterRun step) (emit (AddSummary step))) ;;
  interruptible (f Progress step) (emit (PrintProgress step)) ;;
  if (Args.checkpoint_every args =? 0)%Z then raise ZeroDivisionError
  else if (step mod Args.checkpoint_every args =? 0)%Z then
    save w (f Periodic step) logdir step ;;
    ret true
  else ret false.

(** The [for] statement: [last_saved_step] is assigned (line 480) only
    when the periodic [save] has returned. *)
Fixpoint for_loop (w : world) (f : faults) (args : Args.t) (logdir : string)
    (steps : list Z) (l : Standalone.locals)
  : list event * Standalone.locals * option exn :=
  match steps with
  | [] => ([], l, None)
  | s :: rest =>
      let l1 := {| Standalone.step := Some s;
                   Standalone.last_saved_step := Standalone.last_saved_step l |} in
      match loop_body w f args logdir s with
      | (t, Ok saved) =>
          let l2 := if saved
                    then {| Standalone.step := Some s;
                            Standalone.last_saved_step := s |}
                    else l1 in
          let '(t', l3, e) := for_loop w f args logdir rest l2 in
          ((t ++ t')%list, l3, e)
      | (t, Raise e) => (t, l1, Some e)
      end
  end.

(** The [finally] clause (lines 487-490) once [step] is bound: an
    exception that leaves the final [save] skips the two calls on the
    coordinator. *)
Definition finally_clause (w : world) (f : faults) (logdir : string)
    (s last_saved_step : Z) : io unit :=
  (if (s >? last_saved_step)%Z then save w (f Final s) logdir s else ret tt) ;;
  emit CoordRequestStop ;;
  emit CoordJoin.

(** The second [try] statement (lines 450-490). An exception raised in
    the [finally] clause replaces the one that was on its way. *)
Definition train (w : world) (f : faults) (args : Args.t) (logdir : string)
    (saved_global_step : Z) : Standalone.run :=
  let '(t, l, e) :=
    for_loop w f args logdir
      (range (saved_global_step + 1) (Args.num_steps args))
      {| Standalone.step := None;
         Standalone.last_saved_step := saved_global_step |} in
  (* except KeyboardInterrupt *)
  let '(t_except, pending) :=
    match e with
    | Some KeyboardInterrupt => ([Print ""], None)
    | _ => ([], e)
    end in
  (* finally *)
  match Standalone.step l with
  | None =>
      {| Standalone.loop_events := t;
         Standalone.except_events := t_except;
         Standalone.finally_events := [];
         Standalone.final_locals := l;
         Standalone.run_outcome := Raise (NameError "step") |}
  | Some s =>
      let cleanup :=
        finally_clause w f logdir s (Standalone.last_saved_step l) in
      {| Standalone.loop_events := t;
         Standalone.except_events := t_except;
         Standalone.finally_events := events cleanup;
         Standalone.final_locals := l;
         Standalone.run_outcome :=
           match outcome cleanup, pending with
           | Raise e', _ => Raise e'
           | Ok _, Some e' => Raise e'
           | Ok _, None => Ok tt
           end |}
  end.

End Fallible.

(** ** What a trace says *)

(** The steps checkpoints were saved at, in order. *)
Definition saved_steps (t : list event) : list Z :=
  flat_map (fun e => match e with SaverSave _ s => [s] | _ => [] end) t.

(** The steps of the checkpoints written by a periodic [save] that
    returned: those that line 480 recorded in [last_saved_step]. *)
Definition recorded (f : Fallible.faults) (t : list event) : list Z :=
  filter (fun s => Fallible.returns (f Fallible.Periodic s)) (saved_steps t).

(** The steps [sess.run] was called at, in order. *)
Definition ran_steps (t : list event) : list Z :=
  flat_map (fun e => match e with SessRun s => [s] | _ => [] end) t.

(** The steps summaries were written for, in order. *)
Definition summary_steps (t : list event) : list Z :=
  flat_map (fun e => match e with AddSummary s => [s] | _ => [] end) t.


(** The paths checkpoints were saved under, in order. *)
Definition saved_paths (t : list event) : list string :=
  flat_map (fun e => match e with SaverSave p _ => [p] | _ => [] end) t.

(** The paths [saver.restore] was called with, in order. *)
Definition restored_paths (t : list event) : list string :=
  flat_map (fun e => match e with SaverRestore p => [p] | _ => [] end) t.

(** Whether an event allocates a training resource or opens a file. *)
Definition touches_resources (e : event) : bool :=
  match e with
  | Print _ | PrintProgress _ => false
  | _ => true
  end.

(** The last element of a list, if it has one. *)
Definition last_error {A} (l : list A) : option A :=
  match l with
  | [] => None
  | x :: l' => Some (List.last l' x)
  end.

(** Every tower lists the same [L] parameters. *)
Definition aligned (L : nat) (tower_grads : list (list Tower.grad_and_var)) : Prop :=
  Forall (fun tower => List.length tower = L) tower_grads.

(** The gradients of a tuple that are not [None]. *)
Definition present (grad_and_vars : list Tower.grad_and_var) : list Tower.tensor :=
  flat_map (fun gv => match fst gv with Some g => [g] | None => [] end)
           grad_and_vars.

(** Whether a character occurs in a string. *)
Fixpoint occurs (c : ascii) (s : string) : bool :=
  match s with
  | EmptyString => false
  | String a rest => Ascii.eqb a c || occurs c rest
  end.

Definition is_digit (a : ascii) : bool :=
  let n := nat_of_ascii a in
  ((48 <=? n) && (n <=? 57))%nat.

Fixpoint all_digits (s : string) : bool :=
  match s with
  | EmptyString => true
  | String a rest => is_digit a && all_digits rest
  end.



(** ** Concrete runs *)

(** The defaults of lines 22-39 and 43-104; the floats are written by
    their decimal values. *)
Definition default_args : Args.t :=
  {| Args.batch_size := 1;
     Args.data_dir := "./VCTK-Corpus";
     Args.store_metadata := false;
     Args.logdir := None;
     Args.logdir_root := None;
     Args.restore_from := None;
     Args.checkpoint_every := 50;
     Args.num_steps := 100000;
     Args.learning_rate := Finite (1 # 1000);
     Args.wavenet_params := "./wavenet_params.json";
     Args.sample_size := 100000;
     Args.l2_regularization_strength := Finite 0;
     Args.silence_threshold := Finite (3 # 10);
     Args.optimizer := "adam";
     Args.momentum := Finite (9 # 10);
     Args.num_gpus := 1;
     Args.random_crop := false;
     Args.ps_hosts := "";
     Args.worker_hosts := "";
     Args.job_name := STANDALONE;
     Args.task_index := 0 |}.

Definition with_steps (num_steps checkpoint_every : Z) (a : Args.t) : Args.t :=
  {| Args.batch_size := Args.batch_size a;
     Args.data_dir := Args.data_dir a;
     Args.store_metadata := Args.store_metadata a;
     Args.logdir := Args.logdir a;
     Args.logdir_root := Args.logdir_root a;
     Args.restore_from := Args.restore_from a;
     Args.checkpoint_every := checkpoint_every;
     Args.num_steps := num_steps;
     Args.learning_rate := Args.learning_rate a;
     Args.wavenet_params := Args.wavenet_params a;
     Args.sample_size := Args.sample_size a;
     Args.l2_regularization_strength := Args.l2_regularization_strength a;
     Args.silence_threshold := Args.silence_threshold a;
     Args.optimizer := Args.optimizer a;
     Args.momentum := Args.momentum a;
     Args.num_gpus := Args.num_gpus a;
     Args.random_crop := Args.random_crop a;
     Args.ps_hosts := Args.ps_hosts a;
     Args.worker_hosts := Args.worker_hosts a;
     Args.job_name := Args.job_name a;
     Args.task_index := Args.task_index a |}.

Definition with_directories (logdir logdir_root restore_from : option string)
    (a : Args.t) : Args.t :=
  {| Args.batch_size := Args.batch_size a;
     Args.data_dir := Args.data_dir a;
     Args.store_metadata := Args.store_metadata a;
     Args.logdir := logdir;
     Args.logdir_root := logdir_root;
     Args.restore_from := restore_from;
     Args.checkpoint_every := Args.checkpoint_every a;
     Args.num_steps := Args.num_steps a;
     Args.learning_rate := Args.learning_rate a;
     Args.wavenet_params := Args.wavenet_params a;
     Args.sample_size := Args.sample_size a;
     Args.l2_regularization_strength := Args.l2_regularization_strength a;
     Args.silence_threshold := Args.silence_threshold a;
     Args.optimizer := Args.optimizer a;
     Args.momentum := Args.momentum a;
     Args.num_gpus := Args.num_gpus a;
     Args.random_crop := Args.random_crop a;
     Args.ps_hosts := Args.ps_hosts a;
     Args.worker_hosts := Args.worker_hosts a;
     Args.job_name := Args.job_name a;
     Args.task_index := Args.task_index a |}.

Definition as_worker (task_index : Z) (a : Args.t) : Args.t :=
  {| Args.batch_size := Args.batch_size a;
     Args.data_dir := Args.data_dir a;
     Args.store_metadata := Args.store_metadata a;
     Args.logdir := Args.logdir a;
     Args.logdir_root := Args.logdir_root a;
     Args.restore_from := Args.restore_from a;
     Args.checkpoint_every := Args.checkpoint_every a;
     Args.num_steps := Args.num_steps a;
     Args.learning_rate := Args.learning_rate a;
     Args.wavenet_params := Args.wavenet_params a;
     Args.sample_size := Args.sample_size a;
     Args.l2_regularization_strength := Args.l2_regularization_strength a;
     Args.silence_threshold := Args.silence_threshold a;
     Args.optimizer := Args.optimizer a;
     Args.momentum := Args.momentum a;
     Args.num_gpus := Args.num_gpus a;
     Args.random_crop := Args.random_crop a;
     Args.ps_hosts := "ps0:2222";
     Args.worker_hosts := "worker0:2222,worker1:2222";
     Args.job_name := "worker";
     Args.task_index := task_index |}.

(** A world with the given checkpoint state in every directory, in
    which nothing fails; the distributed runs fetch the global steps
    listed. *)
Definition quiet_world (checkpoint : option string) (fetched : list Z) : world :=
  {| STARTED_DATESTRING := "2016-10-01T12-00-00";
     path_exists := fun _ => true;
     get_checkpoint_state := fun _ => Ok checkpoint;
     saver_restore := fun _ => Ok tt;
     json_load := fun _ => Ok {| sample_rate := 16000 |};
     compute_gradients := fun _ => [];
     sess_run := fun _ => Ok tt;
     replica_runs := map Ok fetched |}.

(** * Properties *)

(** ** Gradient averaging *)

Module TowerFacts.
Import Tower.

Lemma concat_collect_grads (col : list grad_and_var) :
  tf_concat0 (collect_grads col) = present col.
Proof.
  induction col as [|[[g|] v] col IH]; simpl; auto.
  unfold tf_concat0 in *. simpl. now rewrite IH.
Qed.

Lemma collect_grads_empty (col : list grad_and_var) :
  (List.length (collect_grads col) =? 0)%nat = true <-> present col = [].
Proof.
  induction col as [|[[g|] v] col IH]; simpl.
  - tauto.
  - split; discriminate.
  - exact IH.
Qed.

Lemma heads_aligned {A} (L : nat) (ls : list (list A)) :
  Forall (fun l => List.length l = S L) ls ->
  exists hs, heads ls = Some hs
             /\ map Some hs = map (fun l => nth_error l 0) ls
             /\ Forall (fun l => List.length l = L) (tails ls).
Proof.
  induction 1 as [|l ls Hl _ IH].
  - exists []. simpl. auto.
  - destruct IH as (hs & Hh & Hm & Ht).
    destruct l as [|x l]; [discriminate|].
    exists (x :: hs). simpl. rewrite Hh, Hm.
    split; [reflexivity|]. split; [reflexivity|].
    constructor; [simpl in Hl; lia | exact Ht].
Qed.

Lemma column_tails (tg : list (list grad_and_var)) (i : nat) :
  column (tails tg) i = column tg (S i).
Proof.
  unfold column, tails. rewrite map_map. apply map_ext.
  intros [|x l]; simpl; auto; now destruct i.
Qed.

Lemma zip_star_fuel_nth (L : nat) :
  forall (tg : list (list grad_and_var)) (i : nat),
    aligned L tg -> (i < L)%nat ->
    exists col, nth_error (zip_star_fuel L tg) i = Some col
                /\ map Some col = column tg i.
Proof.
  induction L as [|L IH]; intros tg i Hal Hi; [lia|].
  destruct (heads_aligned Hal) as (hs & Hh & Hm & Ht).
  simpl. rewrite Hh.
  destruct i as [|i].
  - exists hs. split; auto.
  - destruct (IH (tails tg) i Ht) as (col & Hc & Hcol); [lia|].
    exists col. split; auto. now rewrite <- column_tails.
Qed.

Lemma zip_star_fuel_length (L : nat) :
  forall (tg : list (list grad_and_var)),
    aligned L tg -> List.length (zip_star_fuel L tg) = L.
Proof.
  induction L as [|L IH]; intros tg Hal; auto.
  destruct (heads_aligned Hal) as (hs & Hh & Hm & Ht).
  simpl. rewrite Hh. simpl. now rewrite IH.
Qed.

Lemma present_column (tg : list (list grad_and_var)) (i : nat) :
  forall col, map Some col = column tg i -> present col = contributions tg i.
Proof.
  unfold column, contributions, present, grad_and_var.
  induction tg as [|t tg IH]; intros [|gv col] H; simpl in *; try discriminate; auto.
  injection H as Hgv Hcol. rewrite <- Hgv.
  destruct gv as [[g|] v]; simpl; now rewrite (IH col Hcol).
Qed.

Lemma average_loop_nth (tuples : list (list grad_and_var)) :
  forall v acc res,
    average_loop tuples v acc = Ok res ->
    List.length res = (List.length acc + List.length tuples)%nat
    /\ (forall i, (i < List.length acc)%nat -> nth_error res i = nth_error acc i)
    /\ (forall i col,
          nth_error tuples i = Some col -> present col <> [] ->
          exists g v', hd_error col = Some (g, v')
                       /\ nth_error res (List.length acc + i)
                          = Some (Some (tf_reduce_mean0 (present col)), v')).
Proof.
  induction tuples as [|c tuples IH]; intros v acc res H; cbn [average_loop] in H.
  - injection H as <-. repeat split; auto.
    intros [|i] col Hc; discriminate.
  - destruct (List.length (collect_grads c) =? 0)%nat eqn:E.
    + destruct v as [v0|]; [|discriminate].
      apply IH in H. destruct H as (Hlen & Hacc & Hnth).
      rewrite length_app in *. simpl in *.
      split; [lia|]. split.
      * intros i Hi. rewrite Hacc by lia. now rewrite nth_error_app1.
      * intros [|i] col Hc Hp; simpl in Hc.
        -- injection Hc as <-. apply collect_grads_empty in E. contradiction.
        -- destruct (Hnth i col Hc Hp) as (g & v' & Hh & Hr).
           exists g, v'. split; auto.
           replace (List.length acc + S i)%nat
             with (List.length acc + 1 + i)%nat by lia. exact Hr.
    + rewrite concat_collect_grads in H.
      assert (Hc0 : exists g0 v0 c', c = (g0, v0) :: c').
      { destruct c as [|[g0 v0] c']; [discriminate|]. eauto. }
      destruct Hc0 as (g0 & v0 & c' & Hc0). remember (present c) as p eqn:Hpc. rewrite Hc0 in H. cbn iota in H.
      apply IH in H. destruct H as (Hlen & Hacc & Hnth).
      rewrite length_app in *. simpl List.length in *.
      split; [lia|]. split.
      * intros i Hi. rewrite Hacc by lia. now rewrite nth_error_app1.
      * intros [|i] col Hc Hp; simpl in Hc.
        -- injection Hc as <-. exists g0, v0. split; [now rewrite Hc0|].
           rewrite Hacc by lia. rewrite nth_error_app2 by lia.
           replace (List.length acc + 0 - List.length acc)%nat with 0%nat by lia.
           subst p. reflexivity.
        -- destruct (Hnth i col Hc Hp) as (g & v' & Hh & Hr).
           exists g, v'. split; auto.
           replace (List.length acc + S i)%nat
             with (List.length acc + 1 + i)%nat by lia. exact Hr.
Qed.

Lemma average_loop_bound (tuples : list (list grad_and_var)) :
  forall v0 acc, exists res, average_loop tuples (Some v0) acc = Ok res.
Proof.
  induction tuples as [|c tuples IH]; intros v0 acc; simpl.
  - eauto.
  - destruct (List.length (collect_grads c) =? 0)%nat eqn:E; auto.
    destruct c as [|[g v'] c]; [discriminate|]. auto.
Qed.

Lemma average_loop_first (c : list grad_and_var) rest v acc :
  present c <> [] -> exists res, average_loop (c :: rest) v acc = Ok res.
Proof.
  intros Hp. cbn [average_loop].
  destruct (List.length (collect_grads c) =? 0)%nat eqn:E.
  - apply collect_grads_empty in E. contradiction.
  - destruct c as [|[g v'] c]; [discriminate|]. apply average_loop_bound.
Qed.

Lemma average_loop_unbound (c : list grad_and_var) rest acc :
  present c = [] -> average_loop (c :: rest) None acc = Raise (NameError "v").
Proof.
  intros Hp. cbn [average_loop].
  apply collect_grads_empty in Hp. now rewrite Hp.
Qed.

Lemma contributions_no_parameter (tg : list (list grad_and_var)) (i : nat) :
  aligned 0 tg -> contributions tg i = [].
Proof.
  unfold contributions.
  induction 1 as [|t tg Ht _ IH]; simpl; auto.
  destruct t; [|discriminate]. rewrite IH. now destruct i.
Qed.

(** Where every tower lists the same [L] parameters and the first of
    them has a gradient in some tower, the averaging returns one pair
    per parameter, and the pair of a parameter with contributions holds
    [tf.reduce_mean] of exactly these, next to the variable the first
    tower lists there. *)
Lemma average_gradients_mean (L : nat) (t0 : list grad_and_var)
    (tg : list (list grad_and_var)) :
  aligned L (t0 :: tg) ->
  contributions (t0 :: tg) 0 <> [] ->
  exists res,
    average_gradients (t0 :: tg) = Ok res
    /\ List.length res = L
    /\ forall i, (i < L)%nat -> contributions (t0 :: tg) i <> [] ->
         exists g v,
           nth_error t0 i = Some (g, v)
           /\ nth_error res i
              = Some (Some (tf_reduce_mean0 (contributions (t0 :: tg) i)), v).
Proof.
  intros Hal H0.
  assert (Hlen : List.length t0 = L) by now inversion Hal.
  destruct L as [|L]; [now rewrite contributions_no_parameter in H0|].
  unfold average_gradients, zip_star. rewrite Hlen.
  destruct (zip_star_fuel_nth Hal (i := 0)) as (c0 & Hc0 & Hcol0); [lia|].
  pose proof (zip_star_fuel_length Hal) as Hl.
  remember (zip_star_fuel (S L) (t0 :: tg)) as tuples eqn:Ht.
  destruct tuples as [|c rest]; [discriminate|].
  simpl in Hc0. injection Hc0 as ->.
  apply present_column in Hcol0.
  destruct (@average_loop_first c0 rest None []) as (res & Hres);
    [now rewrite Hcol0|].
  exists res. split; auto.
  destruct (average_loop_nth _ _ _ Hres) as (Hlr & _ & Hnth).
  split; [simpl in *; lia|].
  intros i Hi Hci.
  destruct (zip_star_fuel_nth Hal Hi) as (col & Hc & Hcol).
  rewrite <- Ht in Hc.
  pose proof (present_column _ _ _ Hcol) as Hp.
  destruct (Hnth i col Hc) as (g & v & Hh & Hr); [now rewrite Hp|].
  exists g, v. rewrite <- Hp. split; auto.
  destruct col as [|gv col]; [discriminate|].
  simpl in Hh. injection Hh as ->.
  unfold column in Hcol. simpl in Hcol. now injection Hcol as <- _.
Qed.

(** Where the first parameter has a gradient in no tower, line 248
    reads [v] before any assignment. *)
Lemma average_gradients_first_absent (L : nat) (t0 : list grad_and_var)
    (tg : list (list grad_and_var)) :
  aligned (S L) (t0 :: tg) ->
  contributions (t0 :: tg) 0 = [] ->
  average_gradients (t0 :: tg) = Raise (NameError "v").
Proof.
  intros Hal H0.
  assert (Hlen : List.length t0 = S L) by now inversion Hal.
  unfold average_gradients, zip_star. rewrite Hlen.
  destruct (zip_star_fuel_nth Hal (i := 0)) as (c0 & Hc0 & Hcol0); [lia|].
  destruct (zip_star_fuel (S L) (t0 :: tg)) as [|c rest]; [discriminate|].
  simpl in Hc0. injection Hc0 as ->.
  apply average_loop_unbound. now rewrite (present_column _ _ _ Hcol0).
Qed.

Lemma Qsum_map_nth_length (rows : list tensor) :
  (0 < List.length rows)%nat ->
  ~ (inject_Z (Z.of_nat (List.length rows)) == 0)%Q.
Proof.
  intros H E. unfold Qeq in E. simpl in E. lia.
Qed.

(** Component [j] of [tf.reduce_mean] over the rows, times the number
    of rows, is the sum of component [j] of the rows. *)
Lemma tf_reduce_mean0_component (r : tensor) (rows : list tensor) (j : nat) :
  (j < List.length r)%nat ->
  (nth j (tf_reduce_mean0 (r :: rows)) 0
   * inject_Z (Z.of_nat (List.length (r :: rows)))
   == Qsum (map (fun row => nth j row 0) (r :: rows)))%Q.
Proof.
  intros Hj. unfold tf_reduce_mean0.
  set (f := fun j0 => (Qsum (map (fun row => nth j0 row 0) (r :: rows))
                       / inject_Z (Z.of_nat (List.length (r :: rows))))%Q).
  rewrite (nth_indep _ 0%Q (f 0%nat)) by now rewrite length_map, length_seq.
  rewrite (map_nth f), seq_nth by assumption. unfold f. simpl Nat.add.
  rewrite Qmult_comm. apply Qmult_div_r.
  apply Qsum_map_nth_length. simpl. lia.
Qed.

End TowerFacts.

(** ** Strings, paths and decimal literals *)

Module StringFacts.

Lemma append_assoc (a b c : string) : (a ++ b) ++ c = a ++ (b ++ c).
Proof. induction a; simpl; congruence. Qed.

Lemma occurs_append (c : ascii) (a b : string) :
  occurs c (a ++ b) = occurs c a || occurs c b.
Proof.
  induction a as [|x a IH]; simpl; auto. rewrite IH. now rewrite orb_assoc.
Qed.

Lemma split_no_sep (c : ascii) (s : string) :
  occurs c s = false -> split c s = [s].
Proof.
  induction s as [|a s IH]; simpl; auto.
  intros H. apply orb_false_iff in H as [Ha Hs].
  rewrite Ha, (IH Hs). reflexivity.
Qed.

Lemma split_after_sep (c : ascii) (s : string) :
  occurs c s = false ->
  forall p, exists w ws,
    split c (p ++ String c s) = w :: ws /\ ws <> [] /\ List.last ws "" = s.
Proof.
  intros Hs. induction p as [|a p (w & ws & Hsp & Hne & Hl)]; simpl.
  - rewrite Ascii.eqb_refl, (split_no_sep _ _ Hs). exists "", [s]. now repeat split.
  - rewrite Hsp. destruct (Ascii.eqb a c).
    + exists "", (w :: ws). repeat split; [discriminate|].
      destruct ws; [contradiction|exact Hl].
    + exists (String a w), ws. now repeat split.
Qed.

Lemma last_item_after_sep (c : ascii) (p s : string) :
  occurs c s = false -> last_item (split c (p ++ String c s)) = s.
Proof.
  intros Hs. destruct (split_after_sep _ _ Hs p) as (w & ws & Hsp & Hne & Hl).
  rewrite Hsp. unfold last_item. destruct ws; [contradiction|exact Hl].
Qed.

Lemma last_item_no_sep (c : ascii) (s : string) :
  occurs c s = false -> last_item (split c s) = s.
Proof. intros Hs. now rewrite (split_no_sep _ _ Hs). Qed.

Lemma endswith_append (c : ascii) (s : string) :
  endswith c s = true -> exists p, s = p ++ String c "".
Proof.
  induction s as [|a s IH]; [discriminate|].
  destruct s as [|b s].
  - simpl. intros H. apply Ascii.eqb_eq in H. subst. now exists "".
  - intros H. destruct (IH H) as (p & Hp). exists (String a p). simpl.
    now rewrite <- Hp.
Qed.

(** The last component of a path made by [path_join2] is the name
    joined on, when that name holds no slash. *)
Lemma last_item_path_join2 (dir name suffix : string) :
  startswith "/" name = false ->
  occurs "/" (name ++ suffix) = false ->
  last_item (split "/" (path_join2 dir name ++ suffix)) = name ++ suffix.
Proof.
  intros Hst Hoc. unfold path_join2. rewrite Hst.
  destruct (dir =? "") eqn:Hd; simpl orb.
  - apply String.eqb_eq in Hd. subst. simpl. now apply last_item_no_sep.
  - destruct (endswith "/" dir) eqn:He.
    + destruct (endswith_append _ _ He) as (p & ->).
      rewrite !append_assoc. simpl. now apply last_item_after_sep.
    + rewrite !append_assoc. simpl. now apply last_item_after_sep.
Qed.

Lemma all_digits_uint (d : Decimal.uint) :
  all_digits (NilEmpty.string_of_uint d) = true.
Proof. induction d; simpl; auto. Qed.

Lemma all_digits_occurs (c : ascii) (s : string) :
  is_digit c = false -> all_digits s = true -> occurs c s = false.
Proof.
  intros Hc. induction s as [|a s IH]; simpl; auto.
  intros H. apply andb_true_iff in H as [Ha Hs]. rewrite (IH Hs), orb_false_r.
  destruct (Ascii.eqb a c) eqn:E; auto. apply Ascii.eqb_eq in E. congruence.
Qed.

Lemma is_digit_not_space (a : ascii) : is_digit a = true -> is_space a = false.
Proof.
  unfold is_digit, is_space. intros H.
  apply andb_true_iff in H as [H1 H2].
  apply Nat.leb_le in H1. apply Nat.leb_le in H2.
  apply orb_false_iff; split.
  - apply andb_false_iff. right. apply Nat.leb_gt. lia.
  - apply Nat.eqb_neq. lia.
Qed.

Lemma lstrip_digits (s : string) : all_digits s = true -> lstrip s = s.
Proof.
  destruct s as [|a s]; simpl; auto. intros H.
  apply andb_true_iff in H as [Ha _]. now rewrite (is_digit_not_space _ Ha).
Qed.

Lemma rstrip_digits (s : string) : all_digits s = true -> rstrip s = s.
Proof.
  induction s as [|a s IH]; simpl; auto. intros H.
  apply andb_true_iff in H as [Ha Hs]. rewrite (IH Hs).
  destruct s; auto. now rewrite (is_digit_not_space _ Ha).
Qed.

Lemma py_str_nonneg (n : Z) :
  0 <= n -> exists d, d <> Decimal.Nil
                      /\ py_str n = NilEmpty.string_of_uint d
                      /\ Z.of_uint d = n.
Proof.
  intros Hn. unfold py_str. destruct n as [|p|p]; [| |lia].
  - exists (Decimal.D0 Decimal.Nil). repeat split. discriminate.
  - exists (Pos.to_uint p). simpl.
    assert (Hnil : Pos.to_uint p <> Decimal.Nil).
    { intros E. pose proof (DecimalPos.Unsigned.of_to p) as H.
      rewrite E in H. discriminate. }
    repeat split; auto.
    + unfold NilZero.string_of_uint.
      destruct (Pos.to_uint p); [exfalso; now apply Hnil | reflexivity ..].
    + unfold Z.of_uint. now rewrite DecimalPos.Unsigned.of_to.
Qed.

Lemma py_int_digits (d : Decimal.uint) :
  d <> Decimal.Nil -> py_int (NilEmpty.string_of_uint d) = Ok (Z.of_uint d).
Proof.
  intros Hd. unfold py_int.
  rewrite lstrip_digits, rstrip_digits by apply all_digits_uint.
  assert (Hu : unsigned_literal (NilEmpty.string_of_uint d) = Some (Z.of_uint d)).
  { unfold unsigned_literal.
    replace (NilEmpty.string_of_uint d) with (NilZero.string_of_uint d)
      by (destruct d; [exfalso; now apply Hd | reflexivity ..]).
    now rewrite NilZero.usu. }
  destruct d; [exfalso; now apply Hd | ..];
    cbn [NilEmpty.string_of_uint] in *; rewrite Hu; reflexivity.
Qed.

(** [int] reads back the step that the name of a snapshot embeds. *)
Lemma snapshot_step (dir : string) (n : Z) :
  0 <= n ->
  py_int (last_item (split "-" (last_item (split "/" (snapshot_path dir n)))))
  = Ok n.
Proof.
  intros Hn. destruct (py_str_nonneg Hn) as (d & Hd & Hs & Hz).
  unfold snapshot_path, path_join. cbn [fold_left]. rewrite Hs.
  pose proof (all_digits_uint d) as Hdig.
  rewrite last_item_path_join2; auto.
  - change ("model.ckpt" ++ "-" ++ NilEmpty.string_of_uint d)
      with ("model.ckpt" ++ String "-" (NilEmpty.string_of_uint d)).
    rewrite last_item_after_sep by now apply all_digits_occurs.
    rewrite py_int_digits by assumption. now rewrite Hz.
  - rewrite occurs_append. simpl.
    now apply all_digits_occurs.
Qed.

End StringFacts.

(** ** Traces *)

Module TraceFacts.

Lemma saved_steps_app (t t' : list event) :
  saved_steps (t ++ t') = (saved_steps t ++ saved_steps t')%list.
Proof. apply flat_map_app. Qed.

Lemma ran_steps_app (t t' : list event) :
  ran_steps (t ++ t') = (ran_steps t ++ ran_steps t')%list.
Proof. apply flat_map_app. Qed.

Lemma summary_steps_app (t t' : list event) :
  summary_steps (t ++ t') = (summary_steps t ++ summary_steps t')%list.
Proof. apply flat_map_app. Qed.

Lemma last_cons_default {A} (l : list A) :
  forall a d, List.last (a :: l) d = List.last l a.
Proof.
  induction l as [|b l IH]; intros a d; [reflexivity|].
  change (List.last (a :: b :: l) d) with (List.last (b :: l) d).
  now rewrite !IH.
Qed.

Lemma last_error_cons {A} (l : list A) (x : A) :
  l <> [] -> last_error (x :: l) = last_error l.
Proof.
  destruct l as [|a l]; [contradiction|]. intros _. unfold last_error.
  f_equal. apply last_cons_default.
Qed.

(** What [save] leaves in the trace. *)
Lemma save_trace (w : world) (logdir : string) (step : Z) :
  outcome (save w logdir step) = Ok tt
  /\ saved_steps (events (save w logdir step)) = [step]
  /\ ran_steps (events (save w logdir step)) = []
  /\ summary_steps (events (save w logdir step)) = [].
Proof. unfold save. destruct (path_exists w logdir); now repeat split. Qed.

End TraceFacts.

(** ** The standalone loop *)

Module StandaloneFacts.
Import Standalone TraceFacts.

Lemma range_empty (a b : Z) : b <= a -> range a b = [].
Proof.
  intros H. unfold range. replace (Z.to_nat (b - a)) with 0%nat by lia.
  reflexivity.
Qed.

Lemma range_cons (a b : Z) : a < b -> range a b = a :: range (a + 1) b.
Proof.
  intros H. unfold range.
  replace (Z.to_nat (b - a)) with (S (Z.to_nat (b - (a + 1)))) by lia.
  simpl. f_equal; [lia|]. rewrite <- seq_shift, map_map.
  apply map_ext. intros k. lia.
Qed.

Lemma firstn_seq_le (n : nat) :
  forall start len, (n <= len)%nat -> firstn n (seq start len) = seq start n.
Proof.
  induction n as [|n IH]; intros start len H; [reflexivity|].
  destruct len as [|len]; [lia|]. simpl. f_equal. apply IH. lia.
Qed.

Lemma firstn_range (a b : Z) (n : nat) :
  (n <= Z.to_nat (b - a))%nat -> firstn n (range a b) = range a (a + Z.of_nat n).
Proof.
  intros H. unfold range. rewrite firstn_map, firstn_seq_le by assumption.
  replace (Z.to_nat (a + Z.of_nat n - a)) with n by lia. reflexivity.
Qed.

(** One pass through the body calls [sess.run] once, at its step, and
    saves at most the checkpoint of that step. *)
Lemma loop_body_trace (w : world) (args : Args.t) (logdir : string) (s : Z) :
  ran_steps (events (loop_body w args logdir s)) = [s]
  /\ saved_steps (events (loop_body w args logdir s))
     = match outcome (loop_body w args logdir s) with
       | Ok true => [s]
       | _ => []
       end.
Proof.
  unfold loop_body, save.
  destruct (Args.store_metadata args), (s mod 50 =? 0)%Z, (sess_run w s) as [[]|e],
    (Args.checkpoint_every args =? 0)%Z,
    (s mod Args.checkpoint_every args =? 0)%Z, (path_exists w logdir);
    now split.
Qed.

(** When the session run succeeds and the interval is not zero, the
    pass ends normally and saves exactly at the multiples of the
    interval. *)
Lemma loop_body_completes (w : world) (args : Args.t) (logdir : string) (s : Z) :
  sess_run w s = Ok tt ->
  Args.checkpoint_every args <> 0 ->
  outcome (loop_body w args logdir s)
  = Ok (s mod Args.checkpoint_every args =? 0)%Z.
Proof.
  intros Hrun Hce. apply Z.eqb_neq in Hce.
  unfold loop_body, save. rewrite Hrun, Hce.
  destruct (Args.store_metadata args), (s mod 50 =? 0)%Z,
    (s mod Args.checkpoint_every args =? 0)%Z, (path_exists w logdir);
    reflexivity.
Qed.

(** The invariant of the [for] statement: [step] is the step of the
    last session run, [last_saved_step] the step of the last checkpoint
    written (or its value at entry), and the steps run are an initial
    part of the steps to run, the first of them included. *)
Lemma for_loop_invariant (w : world) (args : Args.t) (logdir : string) :
  forall steps l t l' e,
    for_loop w args logdir steps l = (t, l', e) ->
    step l' = match last_error (ran_steps t) with
              | Some s => Some s
              | None => step l
              end
    /\ last_saved_step l' = List.last (saved_steps t) (last_saved_step l)
    /\ (exists n, ran_steps t = firstn n steps
                  /\ (n <= List.length steps)%nat
                  /\ (steps <> [] -> (0 < n)%nat))
    /\ (e = None -> ran_steps t = steps).
Proof.
  induction steps as [|s steps IH]; intros l t l' e H; simpl in H.
  - injection H as <- <- <-. repeat split; auto.
    exists 0%nat. repeat split; auto. congruence.
  - pose proof (loop_body_trace w args logdir s) as [Hran Hsaved].
    destruct (loop_body w args logdir s) as [tb [saved|eb]] eqn:Hb;
      unfold events, outcome in Hran, Hsaved; simpl in Hran, Hsaved.
    + destruct (for_loop w args logdir steps
                  (if saved
                   then {| step := Some s; last_saved_step := s |}
                   else {| step := Some s; last_saved_step := last_saved_step l |}))
        as [[t1 l1] e1] eqn:Hf.
      injection H as <- <- <-.
      apply IH in Hf. destruct Hf as (Hstep & Hlast & (n & Hn & Hle & Hpos) & Hall).
      rewrite ran_steps_app, saved_steps_app, Hran, Hsaved.
      repeat split.
      * rewrite Hstep. simpl app.
        destruct (ran_steps t1) as [|s1 r1] eqn:Hr1; [now destruct saved|].
        rewrite (@last_error_cons _ (s1 :: r1) s) by discriminate. reflexivity.
      * rewrite Hlast. destruct saved; simpl app; simpl last_saved_step.
        -- now rewrite last_cons_default.
        -- reflexivity.
      * exists (S n). simpl. rewrite Hn. repeat split; auto; lia.
      * intros He. simpl. now rewrite (Hall He).
    + injection H as <- <- <-. rewrite Hran, Hsaved. simpl.
      repeat split; auto.
      * exists 1%nat. simpl. repeat split; auto; lia.
      * discriminate.
Qed.

(** With every session run succeeding and an interval that is not
    zero, the loop runs every step and saves at the multiples of the
    interval. *)
Lemma for_loop_completes (w : world) (args : Args.t) (logdir : string) :
  (forall s, sess_run w s = Ok tt) ->
  Args.checkpoint_every args <> 0 ->
  forall steps l, exists t l',
    for_loop w args logdir steps l = (t, l', None)
    /\ ran_steps t = steps
    /\ saved_steps t
       = filter (fun s => (s mod Args.checkpoint_every args =? 0)%Z) steps.
Proof.
  intros Hrun Hce. induction steps as [|s steps IH]; intros l; simpl.
  - exists [], l. now repeat split.
  - pose proof (loop_body_trace w args logdir s) as [Hran Hsaved].
    rewrite (@loop_body_completes w args logdir s (Hrun s) Hce) in Hsaved.
    pose proof (@loop_body_completes w args logdir s (Hrun s) Hce) as Hout.
    destruct (loop_body w args logdir s) as [tb rb].
    unfold events, outcome in *. simpl in Hran, Hsaved, Hout. subst rb.
    match goal with |- context [for_loop w args logdir steps ?l2] =>
      destruct (IH l2) as (t1 & l1 & Hf & Hr1 & Hs1) end.
    rewrite Hf. exists (tb ++ t1)%list, l1.
    rewrite ran_steps_app, saved_steps_app, Hran, Hsaved, Hr1, Hs1.
    repeat split. now destruct (s mod Args.checkpoint_every args =? 0)%Z.
Qed.

End StandaloneFacts.

(** ** Checkpoints of the standalone loop *)

Section StandaloneCheckpoints.
Import Standalone TraceFacts StandaloneFacts.

Variable w : world.
Variable args : Args.t.
Variable logdir : string.

(** The clean-up saves exactly when [step] is bound and greater than
    [last_saved_step]. *)
Lemma train_finally_saves (saved_global_step : Z) :
  let r := train w args logdir saved_global_step in
  saved_steps (finally_events r)
  = match step (final_locals r) with
    | Some s => if (s >? last_saved_step (final_locals r))%Z then [s] else []
    | None => []
    end.
Proof.
  unfold train.
  destruct (for_loop w args logdir
              (range (saved_global_step + 1) (Args.num_steps args))
              {| step := None; last_saved_step := saved_global_step |})
    as [[t l] e].
  assert (H : forall s, saved_steps
                (((if (s >? last_saved_step l)%Z
                   then events (save w logdir s) else [])
                  ++ [CoordRequestStop; CoordJoin])%list)
              = if (s >? last_saved_step l)%Z then [s] else []).
  { intros s. rewrite saved_steps_app.
    destruct (s >? last_saved_step l)%Z; simpl; auto.
    destruct (save_trace w logdir s) as (_ & -> & _). reflexivity. }
  destruct e as [[]|]; destruct (step l) as [s|] eqn:E; simpl;
    rewrite ?E; auto.
Qed.

Lemma train_locals (saved_global_step : Z) :
  let r := train w args logdir saved_global_step in
  step (final_locals r) = last_error (ran_steps (loop_events r))
  /\ last_saved_step (final_locals r)
     = List.last (saved_steps (loop_events r)) saved_global_step.
Proof.
  unfold train.
  destruct (for_loop w args logdir
              (range (saved_global_step + 1) (Args.num_steps args))
              {| step := None; last_saved_step := saved_global_step |})
    as [[t l] e] eqn:Hf.
  apply for_loop_invariant in Hf. destruct Hf as (Hstep & Hlast & _).
  simpl in Hstep, Hlast.
  assert (Hstep' : step l = last_error (ran_steps t)).
  { rewrite Hstep. now destruct (last_error (ran_steps t)). }
  destruct e as [[]|]; destruct (step l) as [s|] eqn:E; simpl;
    rewrite ?E; split; congruence.
Qed.

End StandaloneCheckpoints.

(** ** Claims on standalone training *)

(** C10. When the saved global step S satisfies S + 1 >= num_steps, the
    loop makes no session run and no checkpoint, the clean-up reads the
    local [step] that was never assigned, and the run ends with a
    NameError before it asks the reader threads to stop. *)
Theorem no_iteration_name_error (w : world) (args : Args.t)
    (logdir : string) (saved_global_step : Z) :
  saved_global_step + 1 >= Args.num_steps args ->
  Standalone.train w args logdir saved_global_step
  = {| Standalone.loop_events := [];
       Standalone.except_events := [];
       Standalone.finally_events := [];
       Standalone.final_locals :=
         {| Standalone.step := None;
            Standalone.last_saved_step := saved_global_step |};
       Standalone.run_outcome := Raise (NameError "step") |}.
Proof.
  intros H. unfold Standalone.train.
  rewrite StandaloneFacts.range_empty by lia. reflexivity.
Qed.

Lemma no_iteration_name_error_witness :
  100 + 1 >= Args.num_steps (with_steps 100 50 default_args)
  /\ Standalone.run_io
       (Standalone.train (quiet_world None []) (with_steps 100 50 default_args)
          "./logdir/train/run" 100)
     = ([], Raise (NameError "step")).
Proof.
  split; [simpl; lia|].
  rewrite (@no_iteration_name_error (quiet_world None [])
             (with_steps 100 50 default_args) "./logdir/train/run" 100);
    [reflexivity | simpl; lia].
Defined.

Section Restore.
Import Standalone TraceFacts StandaloneFacts StringFacts.

Variable w : world.

(** [load] without a checkpoint in the directory. *)
Lemma load_no_checkpoint (restore_from : string) :
  get_checkpoint_state w restore_from = Ok None ->
  outcome (load w restore_from) = Ok None.
Proof. intros H. unfold load, bind, emit, lift. now rewrite H. Qed.

(** [load] of a snapshot written at step [n]. *)
Lemma load_snapshot (restore_from : string) (n : Z) :
  0 <= n ->
  get_checkpoint_state w restore_from = Ok (Some (snapshot_path restore_from n)) ->
  saver_restore w (snapshot_path restore_from n) = Ok tt ->
  outcome (load w restore_from) = Ok (Some n).
Proof.
  intros Hn Hc Hr. unfold load, bind, emit, lift. rewrite Hc.
  rewrite (snapshot_step restore_from Hn), Hr. reflexivity.
Qed.

Lemma restore_step_outcome (restore_from : string) (overwritten : bool) :
  outcome (restore_step w restore_from overwritten)
  = match outcome (load w restore_from) with
    | Ok (Some s) => Ok (if overwritten then -1 else s)
    | Ok None => Ok (-1)
    | Raise e => Raise e
    end.
Proof.
  unfold restore_step. now destruct (load w restore_from) as [t [[s|]|e]].
Qed.

Lemma restore_step_events (restore_from : string) (overwritten : bool) :
  ran_steps (events (restore_step w restore_from overwritten)) = []
  /\ saved_steps (events (restore_step w restore_from overwritten)) = []
  /\ (forall e, outcome (load w restore_from) = Raise e ->
        last_error (events (restore_step w restore_from overwritten))
        = Some (Print restore_failed_msg)).
Proof.
  unfold restore_step, load, bind, emit, lift.
  destruct (get_checkpoint_state w restore_from) as [[path|]|e0]; simpl.
  - destruct (py_int _) as [n|e1]; simpl.
    + destruct (saver_restore w path) as [[]|e2]; simpl; repeat split;
        intros e; discriminate || reflexivity.
    + repeat split; intros e; reflexivity.
  - repeat split. discriminate.
  - repeat split.
Qed.

(** The steps the loop runs start at the saved step plus one and go up
    one by one. *)
Lemma train_steps (args : Args.t) (logdir : string) (saved_global_step : Z) :
  exists n : nat,
    ran_steps (loop_events (train w args logdir saved_global_step))
    = range (saved_global_step + 1) (saved_global_step + 1 + Z.of_nat n)
    /\ (saved_global_step + 1 < Args.num_steps args -> (0 < n)%nat).
Proof.
  unfold train.
  destruct (for_loop w args logdir
              (range (saved_global_step + 1) (Args.num_steps args))
              {| step := None; last_saved_step := saved_global_step |})
    as [[t l] e] eqn:Hf.
  apply for_loop_invariant in Hf.
  destruct Hf as (_ & _ & (n & Hn & Hle & Hpos) & _).
  exists n. split.
  - assert (Hr : ran_steps t
                 = range (saved_global_step + 1)
                     (saved_global_step + 1 + Z.of_nat n)).
    { rewrite Hn. apply firstn_range.
      unfold range in Hle. now rewrite length_map, length_seq in Hle. }
    destruct e as [[]|]; destruct (step l); exact Hr.
  - intros Hlt. apply Hpos. rewrite range_cons by lia. discriminate.
Qed.

End Restore.

(** C4. A start without a checkpoint, or with a checkpoint restored
    for a log directory that differs from the directory restored from,
    sets the saved step to -1; a checkpoint that embeds step S, restored
    into the same log directory, sets it to S. The steps run are then the
    saved step plus one, plus two and so on, so that the first step run
    is 0 after a fresh or overwritten start and S + 1 after a restore. *)
Theorem step_counter_start (w : world) (args : Args.t)
    (logdir restore_from : string) (ckpt : option Z) :
  (forall n, ckpt = Some n -> 0 <= n) ->
  get_checkpoint_state w restore_from
  = Ok (option_map (snapshot_path restore_from) ckpt) ->
  (forall path, saver_restore w path = Ok tt) ->
  let is_overwritten_training := negb (logdir =? restore_from) in
  let saved_global_step :=
    match ckpt with
    | Some n => if logdir =? restore_from then n else -1
    | None => -1
    end in
  let ran :=
    ran_steps (Standalone.loop_events
                 (Standalone.train w args logdir saved_global_step)) in
  outcome (Standalone.restore_step w restore_from is_overwritten_training)
  = Ok saved_global_step
  /\ (exists n : nat,
        ran = range (saved_global_step + 1)
                (saved_global_step + 1 + Z.of_nat n))
  /\ (saved_global_step + 1 < Args.num_steps args ->
      hd_error ran = Some (saved_global_step + 1)).
Proof.
  intros Hpos Hck Hrestore ow saved ran.
  split.
  - rewrite restore_step_outcome. unfold ow, saved. destruct ckpt as [n|].
    + rewrite (@load_snapshot w restore_from n); auto.
      now destruct (logdir =? restore_from).
    + now rewrite load_no_checkpoint.
  - destruct (train_steps w args logdir saved) as (n & Hn & Hlt).
    fold ran in Hn. split; [eauto|].
    intros H. specialize (Hlt H). rewrite Hn.
    rewrite StandaloneFacts.range_cons by lia. reflexivity.
Qed.

Lemma step_counter_start_witness :
  let w := quiet_world (Some (snapshot_path "run" 7)) [] in
  let args := with_steps 10 50 default_args in
  outcome (Standalone.restore_step w "run" (negb ("run" =? "run"))) = Ok 7
  /\ hd_error (ran_steps (Standalone.loop_events
                            (Standalone.train w args "run" 7)))
     = Some (7 + 1).
Proof.
  intros w args.
  assert (Hpos : forall n, Some 7 = Some n -> 0 <= n)
    by (intros n [= <-]; lia).
  destruct (@step_counter_start w args "run" "run" (Some 7) Hpos
              eq_refl (fun _ => eq_refl)) as (H1 & _ & H3).
  split; [exact H1 | apply H3; simpl; lia].
Defined.

(** C3, as the code has it. With num_steps = 3, checkpoint_every = 2
    and no checkpoint to restore, the saved step is -1, the loop runs the
    steps 0, 1 and 2 (the steps below num_steps), writes the periodic
    checkpoints of the steps 0 and 2, and the clean-up writes no further
    checkpoint, step 2 being the last one saved; the run ends normally. *)
Theorem fresh_run_of_three_steps (w : world) (args : Args.t)
    (logdir restore_from : string) (overwritten : bool) :
  Args.num_steps args = 3 ->
  Args.checkpoint_every args = 2 ->
  get_checkpoint_state w restore_from = Ok None ->
  (forall s, sess_run w s = Ok tt) ->
  let r := Standalone.train w args logdir (-1) in
  outcome (Standalone.restore_step w restore_from overwritten) = Ok (-1)
  /\ ran_steps (Standalone.loop_events r) = [0; 1; 2]
  /\ saved_steps (Standalone.loop_events r) = [0; 2]
  /\ saved_steps (Standalone.finally_events r) = []
  /\ Standalone.run_outcome r = Ok tt.
Proof.
  intros Hn Hc Hck Hrun r.
  split.
  { rewrite restore_step_outcome. now rewrite load_no_checkpoint. }
  assert (Hce : Args.checkpoint_every args <> 0) by lia.
  destruct (@StandaloneFacts.for_loop_completes w args logdir Hrun Hce
              (range (-1 + 1) (Args.num_steps args))
              {| Standalone.step := None; Standalone.last_saved_step := -1 |})
    as (t & l & Hf & Hran & Hsaved).
  rewrite Hn, Hc in Hsaved. rewrite Hn in Hran.
  change (range (-1 + 1) 3) with [0; 1; 2] in *.
  change (filter (fun s => (s mod 2 =? 0)%Z) [0; 1; 2]) with [0; 2] in Hsaved.
  pose proof (train_finally_saves w args logdir (-1)) as Hfin.
  destruct (train_locals w args logdir (-1)) as [Hs Hl].
  fold r in Hfin, Hs, Hl. cbv zeta in Hfin.
  assert (Hloop : Standalone.loop_events r = t
                  /\ Standalone.run_outcome r = Ok tt).
  { unfold r, Standalone.train. rewrite Hf.
    pose proof (StandaloneFacts.for_loop_invariant _ _ _ _ _ Hf) as (Hst & _).
    rewrite Hran in Hst. simpl in Hst. rewrite Hst. now split. }
  destruct Hloop as [Hloop Hout]. rewrite Hloop in *.
  rewrite Hran, Hsaved in *. rewrite Hs, Hl in Hfin.
  repeat split; auto.
Qed.

Lemma fresh_run_of_three_steps_witness :
  let w := quiet_world None [] in
  let args := with_steps 3 2 default_args in
  let r := Standalone.train w args "./logdir/train/run" (-1) in
  ran_steps (Standalone.loop_events r) = [0; 1; 2]
  /\ saved_steps (Standalone.loop_events r) = [0; 2]
  /\ saved_steps (Standalone.finally_events r) = []
  /\ Standalone.run_outcome r = Ok tt.
Proof.
  intros w args r.
  exact (proj2 (@fresh_run_of_three_steps w args "./logdir/train/run"
                  "./logdir/train/run" false eq_refl eq_refl eq_refl
                  (fun _ => eq_refl))).
Defined.

(** C3, as the specification states it, fails: in the whole program run
    with num_steps = 3 and checkpoint_every = 2 from a fresh start, no
    session run is made at step 3 and no checkpoint of step 3 is
    written; the checkpoints are those of the steps 0 and 2, both
    written by the loop. *)
Lemma fresh_run_has_no_step_three :
  let w := quiet_world None [] in
  let args := with_steps 3 2 default_args in
  ran_steps (events (main w args)) = [0; 1; 2]
  /\ saved_steps (events (main w args)) = [0; 2]
  /\ outcome (main w args) = Ok tt
  /\ ~ In 3 (ran_steps (events (main w args)))
  /\ ~ In 3 (saved_steps (events (main w args))).
Proof.
  intros w args.
  assert (Hr : ran_steps (events (main w args)) = [0; 1; 2]) by reflexivity.
  assert (Hs : saved_steps (events (main w args)) = [0; 2]) by reflexivity.
  rewrite Hr, Hs. repeat split; simpl; intuition discriminate.
Qed.

Section RestoreFailure.
Import TraceFacts.

Variable w : world.

Lemma last_error_app_r {A} (l1 l2 : list A) (x : A) :
  last_error l2 = Some x -> last_error (l1 ++ l2) = Some x.
Proof.
  intros H. induction l1 as [|a l1 IH]; simpl app; auto.
  rewrite last_error_cons; auto.
  destruct l2; [discriminate|]. now destruct l1.
Qed.

Lemma get_tower_events (args : Args.t) :
  events (get_tower w args) = [BuildGraph].
Proof.
  unfold get_tower, build_multigpu, build_singlegpu, bind, emit, ret, lift.
  destruct (Args.num_gpus args >? 1)%Z; [|reflexivity].
  now destruct (Tower.average_gradients _).
Qed.

Lemma restore_step_quiet (restore_from : string) (overwritten : bool) :
  ~ In StartQueueRunners
      (events (Standalone.restore_step w restore_from overwritten)).
Proof.
  unfold Standalone.restore_step, load, bind, emit, lift.
  destruct (get_checkpoint_state w restore_from) as [[path|]|e0]; simpl.
  - destruct (py_int _) as [n|e1]; simpl.
    + destruct (saver_restore w path) as [[]|e2]; simpl; intuition discriminate.
    + intuition discriminate.
  - intuition discriminate.
  - intuition discriminate.
Qed.

(** [standalone] when the restore raises: it stops there, or before
    when the graph could not be built. *)
Lemma standalone_restore_raises (args : Args.t)
    (wavenet_params : wavenet_params_t) (logdir : string)
    (logdir_root : option string) (restore_from : string)
    (overwritten : bool) (e : exn) :
  outcome (Standalone.restore_step w restore_from overwritten) = Raise e ->
  exists reader,
    Standalone.standalone w args wavenet_params logdir logdir_root
      restore_from overwritten
    = match outcome (get_tower w args) with
      | Ok _ =>
          (([NewCoordinator; NewAudioReader reader; BuildGraph;
             NewSummaryWriter logdir; NewSession]
            ++ events (Standalone.restore_step w restore_from overwritten))%list,
           Raise e)
      | Raise eg =>
          ([NewCoordinator; NewAudioReader reader; BuildGraph], Raise eg)
      end.
Proof.
  intros He. eexists.
  pose proof (get_tower_events args) as Hg.
  unfold Standalone.standalone, create_inputs, bind, emit, ret.
  destruct (get_tower w args) as [tg [g|eg]]; unfold events in Hg;
    simpl in Hg; subst tg; simpl.
  - destruct (Standalone.restore_step w restore_from overwritten) as [tr rr].
    unfold outcome in He. simpl in He. subst rr. reflexivity.
  - reflexivity.
Qed.

End RestoreFailure.

(** C7. When [load] raises an error, whatever it is, [standalone] makes
    no session run, writes no checkpoint and does not start the reader
    threads, and it ends with an exception; where the graph was built,
    that exception is the one [load] raised and the last thing done is
    the print of the diagnostic. A directory without a checkpoint is no
    error: [load] returns [None] and the saved step is -1, the fresh
    start. *)
Theorem restore_failure_is_fatal (w : world) (args : Args.t)
    (wavenet_params : wavenet_params_t) (logdir : string)
    (logdir_root : option string) (restore_from : string)
    (is_overwritten_training : bool) :
  let run := Standalone.standalone w args wavenet_params logdir logdir_root
               restore_from is_overwritten_training in
  (forall e, outcome (load w restore_from) = Raise e ->
     ran_steps (events run) = []
     /\ saved_steps (events run) = []
     /\ ~ In StartQueueRunners (events run)
     /\ is_ok (outcome run) = false
     /\ (is_ok (outcome (get_tower w args)) = true ->
         outcome run = Raise e
         /\ last_error (events run) = Some (Print restore_failed_msg)))
  /\ (get_checkpoint_state w restore_from = Ok None ->
      outcome (load w restore_from) = Ok None
      /\ outcome (Standalone.restore_step w restore_from is_overwritten_training)
         = Ok (-1)).
Proof.
  intros run. split.
  - intros e He.
    pose proof (restore_step_outcome w restore_from is_overwritten_training) as Ho.
    rewrite He in Ho.
    destruct (restore_step_events w restore_from is_overwritten_training)
      as (Hr & Hs & Hlast).
    specialize (Hlast e He).
    pose proof (restore_step_quiet w restore_from is_overwritten_training) as Hq.
    destruct (@standalone_restore_raises w args wavenet_params logdir
                logdir_root restore_from is_overwritten_training e Ho)
      as (reader & Hrun).
    fold run in Hrun. rewrite Hrun. clear Hrun.
    destruct (outcome (get_tower w args)) as [g|eg]; unfold events, outcome;
      cbn [fst snd is_ok].
    + rewrite TraceFacts.ran_steps_app, TraceFacts.saved_steps_app.
      unfold events in Hr, Hs, Hlast, Hq. rewrite Hr, Hs.
      split; [reflexivity|]. split; [reflexivity|]. split.
      * intros H. apply in_app_or in H as [H|H]; [|contradiction].
        simpl in H. intuition discriminate.
      * split; [reflexivity|]. intros _. split; [reflexivity|].
        now apply last_error_app_r.
    + split; [reflexivity|]. split; [reflexivity|]. split.
      * simpl. intuition discriminate.
      * split; [reflexivity|]. discriminate.
  - intros Hck. split; [now apply load_no_checkpoint|].
    rewrite restore_step_outcome. now rewrite load_no_checkpoint.
Qed.

Lemma restore_failure_is_fatal_witness :
  (* a checkpoint whose name embeds no step: [int] raises ValueError *)
  let w := quiet_world (Some "./logdir/train/run/model.ckpt") [] in
  let run := Standalone.standalone w default_args {| sample_rate := 16000 |}
               "./logdir/train/run" None "./logdir/train/run" false in
  ran_steps (events run) = []
  /\ outcome run = Raise (ValueError "invalid literal for int() with base 10")
  /\ last_error (events run) = Some (Print restore_failed_msg).
Proof.
  intros w run.
  destruct (@restore_failure_is_fatal w default_args {| sample_rate := 16000 |}
              "./logdir/train/run" None "./logdir/train/run" false)
    as [H _].
  destruct (H (ValueError "invalid literal for int() with base 10") eq_refl)
    as (Hr & _ & _ & _ & Ho).
  destruct (Ho eq_refl) as [Ho1 Ho2].
  repeat split; assumption.
Defined.

(** ** Claims on the directories *)

(** C5, as the specification states it, fails: [--logdir_root] and
    [--restore_from] given together are accepted; the new log directory
    is the dated one below the root and the restore reads from the other
    directory. *)
Lemma logdir_root_with_restore_from_accepted :
  let args := with_directories None (Some "./runs") (Some "./old/run")
                default_args in
  truthy (Args.logdir_root args) = true
  /\ truthy (Args.restore_from args) = true
  /\ outcome (validate_directories "2016-10-01T12-00-00" args)
     = Ok {| dir_logdir := "./runs/train/2016-10-01T12-00-00";
             dir_logdir_root := Some "./runs";
             dir_restore_from := "./old/run" |}.
Proof. repeat split. Qed.

(** C5, as the code has it. [--logdir] given (not empty) together with
    a [--logdir_root] or a [--restore_from] that is given is the
    conflict: [validate_directories] then raises ValueError before any
    effect, and [main] only prints the two lines of the report and
    returns, with no file opened and no training resource made. Every
    other combination, [--logdir_root] with [--restore_from] included,
    is accepted. *)
Theorem logdir_conflicts_rejected (w : world) (args : Args.t) :
  if truthy (Args.logdir args)
     && (truthy (Args.logdir_root args) || truthy (Args.restore_from args))
  then exists msg,
         validate_directories (STARTED_DATESTRING w) args
         = ([], Raise (ValueError msg))
         /\ main w args = ([Print "Some arguments are wrong:"; Print msg], Ok tt)
         /\ existsb touches_resources (events (main w args)) = false
  else exists t d,
         validate_directories (STARTED_DATESTRING w) args = (t, Ok d)
         /\ dir_logdir_root d = Args.logdir_root args
         /\ dir_restore_from d
            = match Args.restore_from args with
              | Some r => r
              | None => dir_logdir d
              end.
Proof.
  unfold main, validate_directories.
  destruct (truthy (Args.logdir args)) eqn:Hl;
    destruct (truthy (Args.logdir_root args)) eqn:Hr;
    destruct (truthy (Args.restore_from args)) eqn:Hf; cbn [andb orb];
    try (eexists; repeat split; fail).
  all: destruct (Args.logdir args) as [l|];
    unfold bind, emit, ret; cbn; eexists; eexists; repeat split.
Qed.

(** ** Claims on distributed training *)

Section Workers.
Import TraceFacts.

Variable args : Args.t.

(** The loop of a worker that is not the chief writes no summary and
    saves nothing. *)
Lemma while_loop_not_chief (runs : list (result Z)) :
  forall step t step' e,
    Distributed.while_loop args false runs step = (t, step', e) ->
    summary_steps t = [] /\ saved_steps t = [] /\ ~ In RunInitTokenOp t.
Proof.
  induction runs as [|r runs IH]; intros step t step' e H; simpl in H.
  - injection H as <- _ _. now repeat split.
  - destruct (step <=? Args.num_steps args)%Z.
    + destruct r as [g|er].
      * destruct (Distributed.while_loop args false runs g)
          as [[t1 s1] e1] eqn:Hw.
        injection H as <- _ _. apply IH in Hw. destruct Hw as (Hs & Hv & Hi).
        simpl. repeat split; auto. intros [H|[H|H]]; try discriminate. auto.
      * injection H as <- _ _. simpl. repeat split; auto.
        intros [H|H]; [discriminate|auto].
    + injection H as <- _ _. now repeat split.
Qed.

(** The loop of the chief writes no checkpoint either: the one of the
    clean-up is the only call of [save]. *)
Lemma while_loop_saves_nothing (is_chief : bool) (runs : list (result Z)) :
  forall step t step' e,
    Distributed.while_loop args is_chief runs step = (t, step', e) ->
    saved_steps t = [].
Proof.
  induction runs as [|r runs IH]; intros step t step' e H; simpl in H.
  - now injection H as <- _ _.
  - destruct (step <=? Args.num_steps args)%Z.
    + destruct r as [g|er].
      * destruct (Distributed.while_loop args is_chief runs g)
          as [[t1 s1] e1] eqn:Hw.
        injection H as <- _ _. apply IH in Hw.
        simpl. rewrite saved_steps_app, Hw. now destruct is_chief.
      * now injection H as <- _ _.
    + now injection H as <- _ _.
Qed.

End Workers.

(** C8. A worker whose task index is not 0 writes no summary and does
    not run the token operation, but it does write a checkpoint: the
    clean-up of line 401 calls [save] whoever the worker is, with the
    step the loop reached last. *)
Theorem worker_not_chief_saves (w : world) (args : Args.t)
    (wavenet_params : wavenet_params_t) (logdir : string) :
  Args.job_name args = "worker" ->
  Args.task_index args <> 0 ->
  let t := events (Distributed.distributed w args wavenet_params logdir) in
  summary_steps t = []
  /\ ~ In RunInitTokenOp t
  /\ exists step, saved_steps t = [step].
Proof.
  intros Hjob Hidx t. unfold t, Distributed.distributed, Distributed.worker.
  rewrite Hjob. apply Z.eqb_neq in Hidx. rewrite Hidx.
  change ("worker" =? "ps") with false. change ("worker" =? "worker") with true.
  cbn iota.
  destruct (Distributed.while_loop args false (replica_runs w) 0)
    as [[tl step] e] eqn:Hw.
  apply while_loop_not_chief in Hw. destruct Hw as (Hs & Hv & Hi).
  unfold create_inputs, save, bind, emit, ret, events.
  destruct (path_exists w logdir);
    destruct e as [[]|]; cbn [fst snd app];
    rewrite ?TraceFacts.summary_steps_app, ?TraceFacts.saved_steps_app, ?Hs, ?Hv.
  all: simpl;
    rewrite ?TraceFacts.summary_steps_app, ?TraceFacts.saved_steps_app, ?Hs, ?Hv;
    split; [reflexivity|]; split; [|eexists; reflexivity];
    rewrite ?in_app_iff; simpl; intuition discriminate.
Qed.

Lemma worker_not_chief_saves_witness :
  let w := quiet_world None [1; 2] in
  let args := with_steps 2 50 (as_worker 1 default_args) in
  let t := events (Distributed.distributed w args {| sample_rate := 16000 |}
                     "./logdir/train/run") in
  summary_steps t = [] /\ exists step, saved_steps t = [step].
Proof.
  intros w args t.
  assert (Hidx : Args.task_index args <> 0) by (simpl; lia).
  destruct (@worker_not_chief_saves w args {| sample_rate := 16000 |}
              "./logdir/train/run" eq_refl Hidx) as (Hs & _ & Hv).
  split; [exact Hs | exact Hv].
Defined.

(** The checkpoint that the worker with task index 1 writes after the
    global steps 1 and 2 were fetched. *)
Example worker_one_saves_step_two :
  saved_steps (events (Distributed.distributed (quiet_world None [1; 2])
                         (with_steps 2 50 (as_worker 1 default_args))
                         {| sample_rate := 16000 |} "./logdir/train/run"))
  = [2].
Proof. reflexivity. Qed.

(** ** Claims on the inputs *)

(** C9. [create_inputs] constructs the reader with the silence
    threshold of the arguments as it is, whatever its value; the local
    that is [None] for a threshold not above EPSILON is not passed on,
    so for such a threshold the reader still gets a number while the
    local holds [None]. *)
Theorem reader_gets_raw_silence_threshold (args : Args.t)
    (wavenet_params : wavenet_params_t) :
  exists reader,
    create_inputs args wavenet_params
    = ([NewCoordinator; NewAudioReader reader], Ok reader)
    /\ reader_silence_threshold reader = Some (Args.silence_threshold args)
    /\ (float_gt (Args.silence_threshold args) EPSILON = false ->
        trimmed_silence_threshold args = None
        /\ reader_silence_threshold reader <> trimmed_silence_threshold args).
Proof.
  eexists. split; [reflexivity|]. split; [reflexivity|].
  intros H. unfold trimmed_silence_threshold. rewrite H.
  split; [reflexivity|discriminate].
Qed.

(** A threshold of zero, given to skip the trimming, reaches the reader
    as zero. *)
Example zero_threshold_reaches_reader :
  let args :=
    {| Args.batch_size := 1; Args.data_dir := "./VCTK-Corpus";
       Args.store_metadata := false; Args.logdir := None;
       Args.logdir_root := None; Args.restore_from := None;
       Args.checkpoint_every := 50; Args.num_steps := 100000;
       Args.learning_rate := Finite (1 # 1000);
       Args.wavenet_params := "./wavenet_params.json";
       Args.sample_size := 100000;
       Args.l2_regularization_strength := Finite 0;
       Args.silence_threshold := Finite 0;
       Args.optimizer := "adam"; Args.momentum := Finite (9 # 10);
       Args.num_gpus := 1; Args.random_crop := false;
       Args.ps_hosts := ""; Args.worker_hosts := "";
       Args.job_name := STANDALONE; Args.task_index := 0 |} in
  trimmed_silence_threshold args = None
  /\ option_map reader_silence_threshold
       (match outcome (create_inputs args {| sample_rate := 16000 |}) with
        | Ok r => Some r
        | Raise _ => None
        end)
     = Some (Some (Finite 0)).
Proof. split; reflexivity. Qed.

(** ** Claims on the gradient averaging *)

Section Averaging.
Import Tower TowerFacts.

(** A parameter without any contribution, met after [v] was bound, gets
    a pair with the gradient [None]: no tensor of zeros is made up. *)
Lemma average_loop_absent (tuples : list (list grad_and_var)) :
  forall v acc res,
    average_loop tuples v acc = Ok res ->
    forall i col,
      nth_error tuples i = Some col -> present col = [] ->
      exists v', nth_error res (List.length acc + i) = Some (None, v').
Proof.
  induction tuples as [|c tuples IH]; intros v acc res H i col Hc Hp;
    cbn [average_loop] in H.
  - destruct i; discriminate.
  - destruct i as [|i]; simpl in Hc.
    + injection Hc as ->. pose proof Hp as E. apply collect_grads_empty in E.
      rewrite E in H. destruct v as [v0|]; [|discriminate].
      destruct (average_loop_nth _ _ _ H) as (_ & Hacc & _).
      exists v0. rewrite Hacc by (rewrite length_app; simpl; lia).
      rewrite nth_error_app2 by lia.
      replace (List.length acc + 0 - List.length acc)%nat with 0%nat by lia.
      reflexivity.
    + replace (List.length acc + S i)%nat
        with (List.length acc + 1 + i)%nat by lia.
      destruct (List.length (collect_grads c) =? 0)%nat.
      * destruct v as [v0|]; [|discriminate].
        destruct (IH _ _ _ H i col Hc Hp) as (v' & Hv).
        rewrite length_app in Hv. eauto.
      * destruct c as [|[g0 v0] c']; [discriminate|].
        destruct (IH _ _ _ H i col Hc Hp) as (v' & Hv).
        rewrite length_app in Hv. eauto.
Qed.

End Averaging.

(** C1. The claim fails where another parameter, listed first, has a
    gradient in no tower: with two towers in which the second parameter
    carries the gradients 2 and 4 (M = N = 2), the averaging ends with
    a NameError at the first parameter and yields nothing for the
    second. *)
Theorem mean_lost_behind_absent_first_parameter :
  let tower_grads :=
    [ [(None, "w0"); (Some [2 # 1], "w1")];
      [(None, "w0"); (Some [4 # 1], "w1")] ] in
  Tower.contributions tower_grads 1 = [[2 # 1]; [4 # 1]]
  /\ Tower.contributions tower_grads 0 = []
  /\ Tower.average_gradients tower_grads = Raise (NameError "v").
Proof. repeat split. Qed.

(** The same two gradients behind a first parameter that has one: the
    pair of the second parameter holds their mean. *)
Example mean_of_two_towers :
  Tower.average_gradients
    [ [(Some [1 # 1], "w0"); (Some [2 # 1], "w1")];
      [(None, "w0"); (Some [4 # 1], "w1")] ]
  = Ok [(Some [1 # 1], "w0"); (Some [6 # 2], "w1")].
Proof. reflexivity. Qed.

(** C2. Where the parameter listed first has a gradient in no tower,
    the averaging is not defined: line 248 reads the local [v] before
    line 253 ever assigned it, and a NameError ends the construction of
    the graph. *)
Theorem no_contribution_first_parameter_unbound (L : nat)
    (t0 : list Tower.grad_and_var) (tg : list (list Tower.grad_and_var)) :
  aligned (S L) (t0 :: tg) ->
  Tower.contributions (t0 :: tg) 0 = [] ->
  Tower.average_gradients (t0 :: tg) = Raise (NameError "v").
Proof. apply TowerFacts.average_gradients_first_absent. Qed.

Lemma no_contribution_first_parameter_unbound_witness :
  Tower.average_gradients [[(None, "w0")]; [(None, "w0")]]
  = Raise (NameError "v").
Proof.
  apply (@no_contribution_first_parameter_unbound 0 [(None, "w0")]
           [[(None, "w0")]]).
  - repeat constructor.
  - reflexivity.
Defined.

(** At a later position the pair of such a parameter holds [None] next
    to the variable of an earlier parameter: nothing is applied for it,
    and its own variable is not listed. *)
Example no_contribution_later_parameter :
  Tower.average_gradients
    [ [(Some [2 # 1], "w0"); (None, "w1")];
      [(Some [4 # 1], "w0"); (None, "w1")] ]
  = Ok [(Some [6 # 2], "w0"); (None, "w0")]
  /\ Tower.applied_updates [(Some [6 # 2], "w0"); (None, "w0")]
     = [([6 # 2], "w0")].
Proof. split; reflexivity. Qed.

(** * Further properties *)

(** ** The averaged gradients *)

Section AveragedGradients.
Import Tower TowerFacts.

Lemma tf_reduce_mean0_length (r : tensor) (rows : list tensor) :
  List.length (tf_reduce_mean0 (r :: rows)) = List.length r.
Proof. unfold tf_reduce_mean0. now rewrite length_map, length_seq. Qed.

(** The tuples that [zip] makes are at most as many as any tower has
    entries. *)
Lemma zip_star_fuel_shortest {A} (fuel : nat) :
  forall (ls : list (list A)) (l : list A),
    In l ls -> (List.length (zip_star_fuel fuel ls) <= List.length l)%nat.
Proof.
  induction fuel as [|fuel IH]; intros ls l Hin; simpl; [lia|].
  destruct (heads ls) as [hs|] eqn:Hh; simpl; [|lia].
  assert (Hl : exists x l', l = x :: l').
  { clear IH. revert hs Hh. induction ls as [|l0 ls IHls]; intros hs Hh;
      [contradiction|].
    simpl in Hh. destruct l0 as [|x0 l0']; [discriminate|].
    destruct (heads ls) as [hs'|] eqn:Hh'; [|discriminate].
    destruct Hin as [<-|Hin]; eauto. }
  destruct Hl as (x & l' & ->).
  specialize (IH (tails ls) l'). simpl.
  assert (Hin' : In l' (tails ls)).
  { unfold tails. apply in_map_iff. exists (x :: l'). auto. }
  specialize (IH Hin'). lia.
Qed.

(** The averaging of the tuples, read at the level of the towers: a
    parameter without contribution gets the gradient [None]. *)
Lemma average_gradients_absent (L : nat) (t0 : list grad_and_var)
    (tg : list (list grad_and_var)) (res : list grad_and_var) (i : nat) :
  aligned L (t0 :: tg) ->
  average_gradients (t0 :: tg) = Ok res ->
  (i < L)%nat ->
  contributions (t0 :: tg) i = [] ->
  exists v, nth_error res i = Some (None, v).
Proof.
  intros Hal Hres Hi Hc.
  assert (Hlen : List.length t0 = L) by now inversion Hal.
  unfold average_gradients, zip_star in Hres. rewrite Hlen in Hres.
  destruct (zip_star_fuel_nth Hal Hi) as (col & Hcol & Hmap).
  apply present_column in Hmap. rewrite Hc in Hmap.
  exact (average_loop_absent _ _ _ Hres i Hcol Hmap).
Qed.

Lemma last_error_snoc {A} (l : list A) (x : A) :
  last_error (l ++ [x]) = Some x.
Proof. destruct l as [|y l]; simpl; auto. f_equal. apply last_last. Qed.

(** The variable that the loop holds in [v] is the one of the pair it
    appended last. *)
Lemma average_loop_stale (tuples : list (list grad_and_var)) :
  forall v acc res,
    average_loop tuples v acc = Ok res ->
    v = option_map snd (last_error acc) ->
    forall i col,
      nth_error tuples i = Some col -> present col = [] ->
      exists k g v',
(List.length acc + i = S k)%nat
        /\ nth_error res k = Some (g, v')
        /\ nth_error res (S k) = Some (None, v').
Proof.
  induction tuples as [|c tuples IH]; intros v acc res H Hv i col Hc Hp.
  - destruct i; discriminate.
  - cbn [average_loop] in H.
    destruct i as [|i]; simpl in Hc.
    + injection Hc as ->. pose proof Hp as E. apply collect_grads_empty in E.
      rewrite E in H. destruct v as [v0|]; [|discriminate].
      destruct (average_loop_nth _ _ _ H) as (_ & Hacc & _).
      destruct acc as [|a acc] using rev_ind; [discriminate|]. clear IHacc.
      rewrite last_error_snoc in Hv. simpl in Hv.
      injection Hv as Hv. destruct a as [g a]. simpl in Hv. subst a.
      exists (List.length acc), g, v0.
      rewrite !length_app in *. simpl List.length in *.
      split; [lia|]. split.
      * rewrite Hacc by lia. rewrite <- app_assoc.
        rewrite nth_error_app2 by lia.
        rewrite Nat.sub_diag. reflexivity.
      * rewrite Hacc by lia. rewrite nth_error_app2;
          rewrite length_app; simpl List.length; [|lia].
        replace (S (List.length acc) - (List.length acc + 1))%nat
          with 0%nat by lia.
        reflexivity.
    + replace (List.length acc + S i)%nat
        with (List.length acc + 1 + i)%nat by lia.
      destruct (List.length (collect_grads c) =? 0)%nat.
      * destruct v as [v0|]; [|discriminate].
        destruct (IH _ _ _ H) with (i := i) (col := col)
          as (k & g & v' & Hk & H1 & H2); auto.
        { now rewrite last_error_snoc. }
        rewrite length_app in Hk. simpl in Hk. eauto 6.
      * destruct c as [|[g0 v0] c']; [discriminate|].
        destruct (IH _ _ _ H) with (i := i) (col := col)
          as (k & g & v' & Hk & H1 & H2); auto.
        { now rewrite last_error_snoc. }
        rewrite length_app in Hk. simpl in Hk. eauto 6.
Qed.

End AveragedGradients.

(** X2. Where every tower lists the same L parameters and the first
    parameter has a gradient in some tower, the averaging succeeds with
    exactly one pair per parameter, in the order of the parameters, and
    the gradient of a pair is [None] exactly when no tower contributed
    to that parameter. *)
Theorem averaging_one_pair_per_parameter (L : nat)
    (t0 : list Tower.grad_and_var) (tg : list (list Tower.grad_and_var)) :
  aligned L (t0 :: tg) ->
  Tower.contributions (t0 :: tg) 0 <> [] ->
  exists res,
    Tower.average_gradients (t0 :: tg) = Ok res
    /\ List.length res = L
    /\ forall i, (i < L)%nat ->
         exists g v,
           nth_error res i = Some (g, v)
           /\ (g = None <-> Tower.contributions (t0 :: tg) i = []).
Proof.
  intros Hal H0.
  destruct (TowerFacts.average_gradients_mean Hal H0) as (res & Hres & Hlen & Hnth).
  exists res. split; auto. split; auto.
  intros i Hi.
  destruct (Tower.contributions (t0 :: tg) i) as [|c cs] eqn:Hc.
  - destruct (@average_gradients_absent L t0 tg res i Hal Hres Hi Hc) as (v & Hv).
    exists None, v. now repeat split.
  - destruct (Hnth i Hi) as (g & v & _ & Hr); [rewrite Hc; discriminate|].
    rewrite Hc in Hr. eexists; eexists; split; [exact Hr|].
    split; discriminate.
Qed.

Lemma averaging_one_pair_per_parameter_witness :
  let t0 := [(Some [1 # 1], "w0"); (None, "w1"); (Some [2 # 1], "w2")] in
  let t1 := [(None, "w0"); (None, "w1"); (Some [4 # 1], "w2")] in
  exists res,
    Tower.average_gradients [t0; t1] = Ok res /\ List.length res = 3%nat.
Proof.
  intros t0 t1.
  assert (Hal : aligned 3 [t0; t1]) by (repeat constructor).
  assert (H0 : Tower.contributions [t0; t1] 0 <> []) by discriminate.
  destruct (@averaging_one_pair_per_parameter 3 t0 [t1] Hal H0)
    as (res & Hres & Hlen & _).
  exists res. split; assumption.
Defined.

(** X3. Where the averaging succeeds, the pair of a parameter without
    any contribution names the variable of the pair just before it: the
    stale [v] of the previous tuple, not the variable of the tuple at
    hand. *)
Theorem averaging_reuses_previous_variable (L : nat)
    (t0 : list Tower.grad_and_var) (tg : list (list Tower.grad_and_var))
    (res : list Tower.grad_and_var) (i : nat) :
  aligned L (t0 :: tg) ->
  Tower.average_gradients (t0 :: tg) = Ok res ->
  (i < L)%nat ->
  Tower.contributions (t0 :: tg) i = [] ->
  exists k g v,
    i = S k
    /\ nth_error res k = Some (g, v)
    /\ nth_error res i = Some (None, v).
Proof.
  intros Hal Hres Hi Hc.
  assert (Hlen : List.length t0 = L) by now inversion Hal.
  unfold Tower.average_gradients, Tower.zip_star in Hres. rewrite Hlen in Hres.
  destruct (TowerFacts.zip_star_fuel_nth Hal Hi) as (col & Hcol & Hmap).
  apply TowerFacts.present_column in Hmap. rewrite Hc in Hmap.
  destruct (@average_loop_stale _ _ _ _ Hres eq_refl _ _ Hcol Hmap)
    as (k & g & v & Hk & H1 & H2).
  simpl in Hk. subst i. eauto 6.
Qed.

Lemma averaging_reuses_previous_variable_witness :
  let t0 := [(Some [2 # 1], "w0"); (None, "w1")] in
  let t1 := [(Some [4 # 1], "w0"); (None, "w1")] in
  exists g v,
    nth_error [(Some [6 # 2], "w0"); (None, "w0")] 0 = Some (g, v)
    /\ nth_error [(Some [6 # 2], "w0"); (None, "w0")] 1 = Some (None, v)
    /\ nth_error t0 1 = Some (None, "w1").
Proof.
  intros t0 t1.
  assert (Hal : aligned 2 [t0; t1]) by (repeat constructor).
  destruct (@averaging_reuses_previous_variable 2 t0 [t1]
              [(Some [6 # 2], "w0"); (None, "w0")] 1 Hal eq_refl (le_n 2) eq_refl)
    as (k & g & v & Hk & H1 & H2).
  injection Hk as <-. exists g, v. repeat split; assumption.
Defined.

(** X4. However long the towers are, the averaging never returns more
    pairs than the shortest tower has entries: [zip] drops what the
    longer towers list beyond. *)
Theorem averaging_stops_at_shortest_tower
    (tower_grads : list (list Tower.grad_and_var))
    (res : list Tower.grad_and_var) (tower : list Tower.grad_and_var) :
  Tower.average_gradients tower_grads = Ok res ->
  In tower tower_grads ->
  (List.length res <= List.length tower)%nat.
Proof.
  intros Hres Hin. unfold Tower.average_gradients in Hres.
  destruct (TowerFacts.average_loop_nth _ _ _ Hres) as (Hlen & _).
  simpl in Hlen. rewrite Hlen. unfold Tower.zip_star.
  destruct tower_grads as [|l ls]; [contradiction|].
  now apply zip_star_fuel_shortest.
Qed.

Lemma averaging_stops_at_shortest_tower_witness :
  let t0 := [(Some [2 # 1], "w0"); (Some [1 # 1], "w1")] in
  let t1 := [(Some [4 # 1], "w0")] in
  Tower.average_gradients [t0; t1] = Ok [(Some [6 # 2], "w0")]
  /\ (List.length [(Some [6 # 2], "w0")] <= List.length t1)%nat.
Proof.
  intros t0 t1. split; [reflexivity|].
  apply (@averaging_stops_at_shortest_tower [t0; t1]
           [(Some [6 # 2], "w0")] t1 eq_refl).
  simpl. auto.
Defined.

(** ** The graph and the checkpoints *)

(** X5. With more than one GPU, towers that list the same parameters
    and a first parameter without gradient in any tower, [standalone]
    ends with the NameError of the averaging right after it started to
    build the graph: no summary writer, no session, no restore and no
    step follow. *)
Theorem multigpu_unbound_variable_stops_standalone (w : world)
    (args : Args.t) (wavenet_params : wavenet_params_t) (logdir : string)
    (logdir_root : option string) (restore_from : string)
    (is_overwritten_training : bool) (L : nat) :
  Args.num_gpus args > 1 ->
  aligned (S L) (map (compute_gradients w) (xrange (Args.num_gpus args))) ->
  Tower.contributions
    (map (compute_gradients w) (xrange (Args.num_gpus args))) 0 = [] ->
  exists reader,
    Standalone.standalone w args wavenet_params logdir logdir_root
      restore_from is_overwritten_training
    = ([NewCoordinator; NewAudioReader reader; BuildGraph],
       Raise (NameError "v")).
Proof.
  intros Hn Hal Hc. eexists.
  unfold Standalone.standalone, create_inputs, get_tower, build_multigpu.
  apply Z.gtb_gt in Hn. rewrite Hn.
  assert (Hx : exists t0 tg,
             map (compute_gradients w) (xrange (Args.num_gpus args)) = t0 :: tg).
  { unfold xrange. rewrite StandaloneFacts.range_cons by (apply Z.gtb_gt in Hn; lia).
    simpl. eauto. }
  destruct Hx as (t0 & tg & Hx). rewrite Hx in *.
  rewrite (TowerFacts.average_gradients_first_absent Hal Hc).
  reflexivity.
Qed.

Lemma multigpu_unbound_variable_stops_standalone_witness :
  let w := {| STARTED_DATESTRING := "2016-10-01T12-00-00";
              path_exists := fun _ => true;
              get_checkpoint_state := fun _ => Ok None;
              saver_restore := fun _ => Ok tt;
              json_load := fun _ => Ok {| sample_rate := 16000 |};
              compute_gradients :=
                fun _ => [(None, "w0"); (Some [1 # 1], "w1")];
              sess_run := fun _ => Ok tt;
              replica_runs := [] |} in
  let args :=
    {| Args.batch_size := 1; Args.data_dir := "./VCTK-Corpus";
       Args.store_metadata := false; Args.logdir := None;
       Args.logdir_root := None; Args.restore_from := None;
       Args.checkpoint_every := 50; Args.num_steps := 100000;
       Args.learning_rate := Finite (1 # 1000);
       Args.wavenet_params := "./wavenet_params.json";
       Args.sample_size := 100000;
       Args.l2_regularization_strength := Finite 0;
       Args.silence_threshold := Finite (3 # 10);
       Args.optimizer := "adam"; Args.momentum := Finite (9 # 10);
       Args.num_gpus := 2; Args.random_crop := false;
       Args.ps_hosts := ""; Args.worker_hosts := "";
       Args.job_name := STANDALONE; Args.task_index := 0 |} in
  outcome (Standalone.standalone w args {| sample_rate := 16000 |}
             "./logdir/train/run" None "./logdir/train/run" false)
  = Raise (NameError "v").
Proof.
  intros w args.
  assert (Hn : Args.num_gpus args > 1) by (simpl; lia).
  assert (Hal : aligned 2 (map (compute_gradients w)
                             (xrange (Args.num_gpus args))))
    by (repeat constructor).
  destruct (@multigpu_unbound_variable_stops_standalone w args
              {| sample_rate := 16000 |} "./logdir/train/run" None
              "./logdir/train/run" false 1 Hn Hal eq_refl) as (reader & H).
  now rewrite H.
Defined.

(** X6. A checkpoint saved at a step that is not negative and found
    again by [load] in the same directory gives that step back: [save]
    hands the saver the path [logdir/model.ckpt] and the step, the saver
    names the snapshot by that path, a dash and the step, and [load]
    reads the step after the last dash of the last path component,
    whatever dashes and slashes the directory name holds. *)
Theorem save_then_load_returns_step (w w' : world) (logdir : string) (step : Z) :
  0 <= step ->
  exists checkpoint_path,
    saved_paths (events (save w logdir step)) = [checkpoint_path]
    /\ saved_steps (events (save w logdir step)) = [step]
    /\ (get_checkpoint_state w' logdir
        = Ok (Some (checkpoint_path ++ "-" ++ py_str step)) ->
        saver_restore w' (checkpoint_path ++ "-" ++ py_str step) = Ok tt ->
        outcome (load w' logdir) = Ok (Some step)).
Proof.
  intros Hs. exists (path_join logdir ["model.ckpt"]).
  split; [|split].
  - unfold save. now destruct (path_exists w logdir).
  - apply TraceFacts.save_trace.
  - intros Hc Hr. now apply load_snapshot.
Qed.

Lemma save_then_load_returns_step_witness :
  let w' := quiet_world (Some "./runs/exp-1/train/model.ckpt-150") [] in
  outcome (load w' "./runs/exp-1/train") = Ok (Some 150).
Proof.
  intros w'.
  assert (Hs : 0 <= 150) by lia.
  destruct (@save_then_load_returns_step (quiet_world None []) w'
              "./runs/exp-1/train" 150 Hs) as (p & Hp & _ & H).
  injection Hp as <-. now apply H.
Defined.

(** ** Runs of the standalone loop *)

Section StandaloneRuns.
Import Standalone TraceFacts StandaloneFacts.

Variable w : world.
Variable args : Args.t.
Variable logdir : string.

Lemma In_range (a b s : Z) : In s (range a b) <-> a <= s < b.
Proof.
  unfold range. rewrite in_map_iff. split.
  - intros (k & <- & Hk). apply in_seq in Hk. lia.
  - intros H. exists (Z.to_nat (s - a)). split; [lia|]. apply in_seq. lia.
Qed.

Lemma range_app (a k b : Z) :
  a <= k <= b -> range a b = (range a k ++ range k b)%list.
Proof.
  remember (Z.to_nat (k - a)) as n eqn:Hn. revert a Hn.
  induction n as [|n IH]; intros a Hn H.
  - replace a with k by lia. now rewrite (@range_empty k k) by lia.
  - rewrite (@range_cons a b), (@range_cons a k) by lia.
    simpl. f_equal. apply IH; lia.
Qed.

Lemma range_one (k : Z) : range k (k + 1) = [k].
Proof.
  rewrite range_cons by lia. now rewrite (@range_empty (k + 1) (k + 1)) by lia.
Qed.

Lemma last_error_range (a b : Z) :
  a < b -> last_error (range a b) = Some (b - 1).
Proof.
  intros H. rewrite (@range_app a (b - 1) b) by lia.
  rewrite (@range_cons (b - 1) b) by lia.
  rewrite (@range_empty (b - 1 + 1) b) by lia.
  apply last_error_snoc.
Qed.

Lemma last_error_last {A} (l : list A) (d : A) :
  l <> [] -> last_error l = Some (List.last l d) /\ In (List.last l d) l.
Proof.
  intros H. destruct (exists_last H) as (l' & x & ->).
  rewrite last_error_snoc, last_last. split; auto.
  apply in_or_app. right. now left.
Qed.

(** What [train] is, once the loop is known. *)
Lemma train_of_for_loop (saved_global_step s : Z) (t : list event)
    (l : locals) (e : option exn) :
  for_loop w args logdir
    (range (saved_global_step + 1) (Args.num_steps args))
    {| step := None; last_saved_step := saved_global_step |} = (t, l, e) ->
  step l = Some s ->
  train w args logdir saved_global_step
  = {| loop_events := t;
       except_events := match e with
                        | Some KeyboardInterrupt => [Print ""]
                        | _ => []
                        end;
       finally_events :=
         ((if (s >? last_saved_step l)%Z then events (save w logdir s) else [])
          ++ [CoordRequestStop; CoordJoin])%list;
       final_locals := l;
       run_outcome := match e with
                      | Some KeyboardInterrupt | None => Ok tt
                      | Some e' => Raise e'
                      end |}.
Proof.
  intros Hf Hs. unfold train. rewrite Hf.
  destruct e as [[]|]; rewrite Hs; reflexivity.
Qed.

Lemma train_except_quiet (saved_global_step : Z) :
  saved_steps (except_events (train w args logdir saved_global_step)) = []
  /\ saved_paths (except_events (train w args logdir saved_global_step)) = [].
Proof.
  unfold train.
  destruct (for_loop w args logdir _ _) as [[t l] e].
  destruct e as [[]|]; destruct (step l); now split.
Qed.

(** A pass whose session run raises leaves the loop with that
    exception, after the run and before any checkpoint. *)
Lemma loop_body_raises (s : Z) (e : exn) :
  sess_run w s = Raise e ->
  outcome (loop_body w args logdir s) = Raise e.
Proof.
  intros H. unfold loop_body, bind, emit, lift. rewrite H.
  now destruct (Args.store_metadata args && (s mod 50 =? 0)%Z).
Qed.

Lemma loop_body_zero_interval (s : Z) :
  sess_run w s = Ok tt ->
  Args.checkpoint_every args = 0 ->
  outcome (loop_body w args logdir s) = Raise ZeroDivisionError.
Proof.
  intros H Hc. unfold loop_body, bind, emit, lift. rewrite H, Hc.
  now destruct (Args.store_metadata args && (s mod 50 =? 0)%Z).
Qed.

(** The loop up to the first step whose pass raises. *)
Lemma for_loop_raises (k : Z) (e : exn) (post : list Z) :
  outcome (loop_body w args logdir k) = Raise e ->
  Args.checkpoint_every args <> 0 ->
  forall pre l,
    (forall s, In s pre -> sess_run w s = Ok tt) ->
    exists t l',
      for_loop w args logdir (pre ++ k :: post) l = (t, l', Some e)
      /\ ran_steps t = (pre ++ [k])%list
      /\ saved_steps t
         = filter (fun s => (s mod Args.checkpoint_every args =? 0)%Z) pre.
Proof.
  intros Hk Hce. induction pre as [|s pre IH]; intros l Hpre; simpl.
  - pose proof (loop_body_trace w args logdir k) as [Hran Hsaved].
    rewrite Hk in Hsaved.
    destruct (loop_body w args logdir k) as [tb rb].
    unfold events, outcome in *. simpl in Hk, Hran, Hsaved. subst rb.
    eexists; eexists. split; [reflexivity|]. now split.
  - pose proof (loop_body_trace w args logdir s) as [Hran Hsaved].
    assert (Hs : sess_run w s = Ok tt) by (apply Hpre; now left).
    pose proof (@loop_body_completes w args logdir s Hs Hce) as Hout.
    rewrite Hout in Hsaved.
    destruct (loop_body w args logdir s) as [tb rb].
    unfold events, outcome in *. simpl in Hran, Hsaved, Hout. subst rb.
    match goal with |- context [for_loop w args logdir _ ?l2] =>
      destruct (IH l2) as (t1 & l1 & Hf & Hr1 & Hs1) end.
    { intros s' Hin. apply Hpre. now right. }
    rewrite Hf. exists (tb ++ t1)%list, l1.
    rewrite ran_steps_app, saved_steps_app, Hran, Hsaved, Hr1, Hs1.
    repeat split. now destruct (s mod Args.checkpoint_every args =? 0)%Z.
Qed.

End StandaloneRuns.

(** X7. A run in which every session run succeeds, with an interval
    that is not zero and at least one step to run, runs every step from
    the saved step plus one up to num_steps - 1 in order, writes its
    periodic checkpoints exactly at the multiples of checkpoint_every
    among them, ends normally, and the last checkpoint it leaves,
    periodic or final, is the one of the last step num_steps - 1. *)
Theorem uninterrupted_run_checkpoints_last_step (w : world) (args : Args.t)
    (logdir : string) (saved_global_step : Z) :
  (forall s, sess_run w s = Ok tt) ->
  Args.checkpoint_every args <> 0 ->
  saved_global_step + 1 < Args.num_steps args ->
  let r := Standalone.train w args logdir saved_global_step in
  let steps := range (saved_global_step + 1) (Args.num_steps args) in
  ran_steps (Standalone.loop_events r) = steps
  /\ saved_steps (Standalone.loop_events r)
     = filter (fun s => (s mod Args.checkpoint_every args =? 0)%Z) steps
  /\ last_error (saved_steps (events (Standalone.run_io r)))
     = Some (Args.num_steps args - 1)
  /\ Standalone.run_outcome r = Ok tt.
Proof.
  intros Hrun Hce Hlt r steps.
  destruct (@StandaloneFacts.for_loop_completes w args logdir Hrun Hce steps
              {| Standalone.step := None;
                 Standalone.last_saved_step := saved_global_step |})
    as (t & l & Hf & Hran & Hsaved).
  destruct (StandaloneFacts.for_loop_invariant _ _ _ _ _ Hf)
    as (Hstep & Hlast & _).
  rewrite Hran in Hstep. unfold steps in Hstep at 1.
  rewrite last_error_range in Hstep by lia.
  simpl Standalone.last_saved_step in Hlast.
  pose proof (@train_of_for_loop w args logdir saved_global_step _ t l None
                Hf Hstep) as Hr.
  fold r in Hr. rewrite Hr. unfold Standalone.run_io, events.
  cbn [Standalone.loop_events Standalone.except_events
       Standalone.finally_events Standalone.run_outcome fst].
  split; [exact Hran|]. split; [exact Hsaved|]. split; [|reflexivity].
  rewrite !TraceFacts.saved_steps_app. cbn [saved_steps flat_map app].
  rewrite app_nil_r.
  destruct (Args.num_steps args - 1 >? Standalone.last_saved_step l)%Z eqn:E.
  - destruct (TraceFacts.save_trace w logdir (Args.num_steps args - 1))
      as (_ & Hsv & _).
    unfold events in Hsv. rewrite Hsv.
    apply last_error_snoc.
  - rewrite app_nil_r.
    assert (Hle : forall x, In x (saved_steps t) -> x <= Args.num_steps args - 1).
    { intros x Hx. rewrite Hsaved in Hx. apply filter_In in Hx as [Hx _].
      apply In_range in Hx. lia. }
    destruct (saved_steps t) as [|x xs] eqn:Hst.
    + simpl in Hlast. lia.
    + destruct (@last_error_last _ (x :: xs) saved_global_step) as [Hl Hin];
        [discriminate|].
      rewrite Hl. f_equal. specialize (Hle _ Hin). lia.
Qed.

Lemma uninterrupted_run_checkpoints_last_step_witness :
  let r := Standalone.train (quiet_world None [])
             (with_steps 8 3 default_args) "./logdir/train/run" 2 in
  ran_steps (Standalone.loop_events r) = [3; 4; 5; 6; 7]
  /\ saved_steps (Standalone.loop_events r) = [3; 6]
  /\ last_error (saved_steps (events (Standalone.run_io r))) = Some 7.
Proof.
  intros r.
  assert (Hce : Args.checkpoint_every (with_steps 8 3 default_args) <> 0)
    by (simpl; lia).
  assert (Hlt : 2 + 1 < Args.num_steps (with_steps 8 3 default_args))
    by (simpl; lia).
  destruct (@uninterrupted_run_checkpoints_last_step (quiet_world None [])
              (with_steps 8 3 default_args) "./logdir/train/run" 2
              (fun _ => eq_refl) Hce Hlt) as (H1 & H2 & H3 & _).
  repeat split; assumption.
Defined.

(** X8. With checkpoint_every = 0 the first step is run, its summary
    is written, and the test of line 478 then raises
    ZeroDivisionError; the clean-up still saves the checkpoint of that
    step and stops the reader threads, and the error leaves
    [standalone]. *)
Theorem zero_interval_fails_after_first_step (w : world) (args : Args.t)
    (logdir : string) (saved_global_step : Z) :
  Args.checkpoint_every args = 0 ->
  saved_global_step + 1 < Args.num_steps args ->
  sess_run w (saved_global_step + 1) = Ok tt ->
  let r := Standalone.train w args logdir saved_global_step in
  ran_steps (Standalone.loop_events r) = [saved_global_step + 1]
  /\ summary_steps (Standalone.loop_events r) = [saved_global_step + 1]
  /\ saved_steps (Standalone.loop_events r) = []
  /\ saved_steps (Standalone.finally_events r) = [saved_global_step + 1]
  /\ Standalone.run_outcome r = Raise ZeroDivisionError.
Proof.
  intros Hce Hlt Hrun r.
  pose proof (@loop_body_zero_interval w args logdir _ Hrun Hce) as Hout.
  pose proof (StandaloneFacts.loop_body_trace w args logdir
                (saved_global_step + 1)) as [Hran Hsaved].
  rewrite Hout in Hsaved.
  assert (Hsum : summary_steps
                   (events (Standalone.loop_body w args logdir
                              (saved_global_step + 1)))
                 = [saved_global_step + 1]).
  { unfold Standalone.loop_body, bind, emit, lift. rewrite Hrun, Hce.
    now destruct (Args.store_metadata args
                  && ((saved_global_step + 1) mod 50 =? 0)%Z). }
  destruct (Standalone.loop_body w args logdir (saved_global_step + 1))
    as [tb rb] eqn:Hb.
  unfold events, outcome in *. simpl in Hout, Hran, Hsaved, Hsum. subst rb.
  assert (Hf : Standalone.for_loop w args logdir
                 (range (saved_global_step + 1) (Args.num_steps args))
                 {| Standalone.step := None;
                    Standalone.last_saved_step := saved_global_step |}
               = (tb, {| Standalone.step := Some (saved_global_step + 1);
                         Standalone.last_saved_step := saved_global_step |},
                  Some ZeroDivisionError)).
  { rewrite StandaloneFacts.range_cons by lia. simpl. now rewrite Hb. }
  pose proof (@train_of_for_loop w args logdir saved_global_step _ _ _ _
                Hf eq_refl) as Hr.
  fold r in Hr. rewrite Hr.
  cbn [Standalone.loop_events Standalone.finally_events
       Standalone.run_outcome Standalone.last_saved_step].
  replace (saved_global_step + 1 >? saved_global_step)%Z with true
    by (symmetry; apply Z.gtb_gt; lia).
  rewrite TraceFacts.saved_steps_app.
  destruct (TraceFacts.save_trace w logdir (saved_global_step + 1))
    as (_ & -> & _).
  now repeat split.
Qed.

Lemma zero_interval_fails_after_first_step_witness :
  let r := Standalone.train (quiet_world None [])
             (with_steps 10 0 default_args) "./logdir/train/run" (-1) in
  ran_steps (Standalone.loop_events r) = [-1 + 1]
  /\ saved_steps (Standalone.finally_events r) = [-1 + 1]
  /\ Standalone.run_outcome r = Raise ZeroDivisionError.
Proof.
  intros r.
  assert (Hlt : -1 + 1 < Args.num_steps (with_steps 10 0 default_args))
    by (simpl; lia).
  destruct (@zero_interval_fails_after_first_step (quiet_world None [])
              (with_steps 10 0 default_args) "./logdir/train/run" (-1)
              eq_refl Hlt eq_refl) as (H1 & _ & _ & H4 & H5).
  repeat split; assumption.
Defined.

(** ** Order and place of the checkpoints *)

Section CheckpointOrder.
Import Standalone TraceFacts StandaloneFacts.

Variable w : world.
Variable args : Args.t.
Variable logdir : string.

Lemma range_sorted (a b : Z) : StronglySorted Z.lt (range a b).
Proof.
  remember (Z.to_nat (b - a)) as n eqn:Hn. revert a Hn.
  induction n as [|n IH]; intros a Hn.
  - rewrite range_empty by lia. constructor.
  - rewrite range_cons by lia. constructor; [apply IH; lia|].
    apply Forall_forall. intros x Hx. apply In_range in Hx. lia.
Qed.

Lemma sorted_below_last (l : list Z) (d : Z) :
  StronglySorted Z.lt l -> forall x, In x l -> x <= List.last l d.
Proof.
  induction 1 as [|a l Hs IH Hf]; intros x Hin; [contradiction|].
  destruct l as [|b l].
  - destruct Hin as [<-|[]]. simpl. lia.
  - change (List.last (a :: b :: l) d) with (List.last (b :: l) d).
    destruct Hin as [<-|Hin]; [|now apply IH].
    assert (Hb : a < b) by (inversion Hf; assumption).
    specialize (IH b (or_introl eq_refl)). lia.
Qed.

(** The checkpoints of the loop are saved at steps of the loop, in
    increasing order, each one under the path of the log directory. *)
Lemma for_loop_saved (steps : list Z) :
  StronglySorted Z.lt steps ->
  forall l t l' e,
    for_loop w args logdir steps l = (t, l', e) ->
    StronglySorted Z.lt (saved_steps t)
    /\ Forall (fun x => In x steps) (saved_steps t)
    /\ Forall (fun p => p = path_join logdir ["model.ckpt"]) (saved_paths t).
Proof.
  induction 1 as [|s steps Hs IH Hf]; intros l t l' e H; simpl in H.
  - injection H as <- _ _. simpl. repeat split; constructor.
  - pose proof (loop_body_trace w args logdir s) as [Hran Hsaved].
    assert (Hpath : Forall (fun p => p = path_join logdir ["model.ckpt"])
                      (saved_paths (events (loop_body w args logdir s)))).
    { unfold loop_body, save, bind, emit, lift, ret.
      destruct (Args.store_metadata args && (s mod 50 =? 0)%Z),
        (sess_run w s) as [[]|], (Args.checkpoint_every args =? 0)%Z,
        (s mod Args.checkpoint_every args =? 0)%Z, (path_exists w logdir);
        simpl; repeat constructor. }
    destruct (loop_body w args logdir s) as [tb [saved|eb]];
      unfold events, outcome in Hran, Hsaved, Hpath;
      simpl in Hran, Hsaved, Hpath.
    + match type of H with context [for_loop w args logdir steps ?l2] =>
        destruct (for_loop w args logdir steps l2) as [[t1 l1] e1] eqn:Hl end.
      injection H as <- _ _. apply IH in Hl. destruct Hl as (Hs1 & Hin1 & Hp1).
      rewrite saved_steps_app, Hsaved.
      assert (Hin' : Forall (fun x => In x (s :: steps)) (saved_steps t1)).
      { eapply Forall_impl; [|exact Hin1]. intros x Hx. now right. }
      split; [|split].
      * destruct saved; simpl; [|exact Hs1]. constructor; [exact Hs1|].
        apply Forall_forall. intros x Hx.
        apply (proj1 (Forall_forall _ _) Hin1) in Hx.
        apply (proj1 (Forall_forall _ _) Hf) in Hx. exact Hx.
      * destruct saved; simpl; [|exact Hin']. constructor; [now left|exact Hin'].
      * unfold saved_paths in *. rewrite flat_map_app.
        apply Forall_app. now split.
    + injection H as <- _ _. rewrite Hsaved.
      repeat split; auto; constructor.
Qed.

End CheckpointOrder.

Section CheckpointPlace.
Import Standalone TraceFacts StandaloneFacts.

Variable w : world.
Variable args : Args.t.
Variable logdir : string.

Lemma sorted_snoc (l : list Z) (s : Z) :
  StronglySorted Z.lt l -> (forall x, In x l -> x < s) ->
  StronglySorted Z.lt (l ++ [s]).
Proof.
  induction 1 as [|a l Hs IH Hf]; intros Hlt; simpl.
  - repeat constructor.
  - constructor.
    + apply IH. intros x Hx. apply Hlt. now right.
    + apply Forall_app. split; [exact Hf|].
      constructor; [|constructor]. apply Hlt. now left.
Qed.

Lemma train_loop_events (saved_global_step : Z) :
  loop_events (train w args logdir saved_global_step)
  = fst (fst (for_loop w args logdir
                (range (saved_global_step + 1) (Args.num_steps args))
                {| step := None; last_saved_step := saved_global_step |})).
Proof.
  unfold train.
  destruct (for_loop w args logdir _ _) as [[t l] e].
  destruct e as [[]|]; destruct (step l); reflexivity.
Qed.

Lemma train_finally_paths (saved_global_step : Z) :
  Forall (fun p => p = path_join logdir ["model.ckpt"])
    (saved_paths (finally_events (train w args logdir saved_global_step))).
Proof.
  unfold train.
  destruct (for_loop w args logdir _ _) as [[t l] e].
  assert (H : forall s,
             Forall (fun p => p = path_join logdir ["model.ckpt"])
               (saved_paths
                  ((if (s >? last_saved_step l)%Z
                    then events (save w logdir s) else [])
                   ++ [CoordRequestStop; CoordJoin])%list)).
  { intros s. unfold save, bind, emit, events.
    destruct (s >? last_saved_step l)%Z, (path_exists w logdir); simpl;
      repeat constructor. }
  destruct e as [[]|]; destruct (step l); simpl; auto.
Qed.

Lemma saved_paths_app (t t' : list event) :
  saved_paths (t ++ t') = (saved_paths t ++ saved_paths t')%list.
Proof. apply flat_map_app. Qed.

Lemma bind_events {A B} (m : io A) (f : A -> io B) :
  events (bind m f)
  = (events m ++ match outcome m with
                 | Ok a => events (f a)
                 | Raise _ => []
                 end)%list.
Proof.
  destruct m as [t [a|e]]; unfold bind, events, outcome; simpl.
  - now destruct (f a).
  - now rewrite app_nil_r.
Qed.

Lemma restore_step_saves_nothing (restore_from : string) (overwritten : bool) :
  saved_paths (events (restore_step w restore_from overwritten)) = [].
Proof.
  unfold restore_step, load, bind, emit, lift.
  destruct (get_checkpoint_state w restore_from) as [[path|]|e0]; simpl; auto.
  destruct (py_int _) as [n|e1]; simpl; auto.
  now destruct (saver_restore w path) as [[]|e2].
Qed.

End CheckpointPlace.

(** X11. Every checkpoint that [standalone] writes goes under the
    path [logdir/model.ckpt], whatever directory was restored from: the
    directory given as [restore_from] is read, and written only when it
    is the log directory itself. *)
Theorem standalone_saves_under_logdir (w : world) (args : Args.t)
    (wavenet_params : wavenet_params_t) (logdir : string)
    (logdir_root : option string) (restore_from : string)
    (is_overwritten_training : bool) :
  Forall (fun p => p = path_join logdir ["model.ckpt"])
    (saved_paths
       (events (Standalone.standalone w args wavenet_params logdir
                  logdir_root restore_from is_overwritten_training))).
Proof.
  unfold Standalone.standalone.
  rewrite bind_events. rewrite saved_paths_app. apply Forall_app. split.
  { unfold create_inputs, bind, emit, ret. simpl. constructor. }
  destruct (outcome (create_inputs args wavenet_params)); [|constructor].
  rewrite bind_events, saved_paths_app, get_tower_events.
  apply Forall_app. split; [constructor|].
  destruct (outcome (get_tower w args)); [|constructor].
  rewrite bind_events, saved_paths_app.
  apply Forall_app. split; [constructor|]. cbn [outcome emit snd].
  rewrite bind_events, saved_paths_app.
  apply Forall_app. split; [constructor|]. cbn [outcome emit snd].
  rewrite bind_events, saved_paths_app, restore_step_saves_nothing.
  apply Forall_app. split; [constructor|].
  destruct (outcome (Standalone.restore_step w restore_from
                       is_overwritten_training)) as [saved|]; [|constructor].
  rewrite bind_events, saved_paths_app.
  apply Forall_app. split; [constructor|]. cbn [outcome emit snd].
  rewrite bind_events, saved_paths_app.
  apply Forall_app. split; [constructor|]. cbn [outcome emit snd].
  unfold Standalone.run_io, events. cbn [fst].
  rewrite !saved_paths_app.
  destruct (train_except_quiet w args logdir saved) as [_ Hx]. rewrite Hx.
  simpl app. apply Forall_app. split; [|apply train_finally_paths].
  rewrite train_loop_events.
  destruct (Standalone.for_loop w args logdir
              (range (saved + 1) (Args.num_steps args))
              {| Standalone.step := None;
                 Standalone.last_saved_step := saved |})
    as [[t l] e] eqn:Hf.
  now destruct (for_loop_saved w args logdir (range_sorted _ _) _ Hf)
    as (_ & _ & Hp).
Qed.

(** ** Runs of a distributed worker *)

Section WorkerRuns.
Import TraceFacts.

Variable args : Args.t.
Variable is_chief : bool.

(** The loop goes through the runs that fetch a global step not above
    num_steps, calling [sess.run] once for each. *)
Lemma while_loop_consumes (pre : list Z) :
  forall step,
    step <= Args.num_steps args ->
    Forall (fun g => g <= Args.num_steps args) pre ->
    exists t_pre,
      List.length (ran_steps t_pre) = List.length pre
      /\ summary_steps t_pre = (if is_chief then pre else [])
      /\ saved_steps t_pre = []
      /\ forall rest,
           Distributed.while_loop args is_chief (map Ok pre ++ rest) step
           = let '(t, step', e) :=
               Distributed.while_loop args is_chief rest (List.last pre step) in
             ((t_pre ++ t)%list, step', e).
Proof.
  induction pre as [|g pre IH]; intros step Hstep Hpre.
  - exists []. repeat split; [now destruct is_chief|].
    intros rest. simpl.
    now destruct (Distributed.while_loop args is_chief rest step) as [[t s] e].
  - inversion Hpre as [|g' pre' Hg Hpre']; subst.
    destruct (IH g Hg Hpre') as (t1 & Hr & Hs & Hv & Hw).
    exists ((SessRun step
             :: (if is_chief then [AddSummary g] else [])
             ++ [PrintProgress g]) ++ t1)%list.
    rewrite ran_steps_app, summary_steps_app, saved_steps_app, Hs, Hv.
    split; [|split; [|split]].
    + rewrite length_app, Hr. now destruct is_chief.
    + now destruct is_chief.
    + now destruct is_chief.
    + intros rest. cbn [map app Distributed.while_loop].
      apply Z.leb_le in Hstep. rewrite Hstep, (Hw rest).
      rewrite last_cons_default.
      destruct (Distributed.while_loop args is_chief rest (List.last pre g))
        as [[t s] e].
      now rewrite app_assoc.
Qed.

(** Above num_steps the loop makes no further run. *)
Lemma while_loop_done (rest : list (result Z)) (step : Z) :
  step > Args.num_steps args ->
  Distributed.while_loop args is_chief rest step = ([], step, None).
Proof.
  intros H. destruct rest as [|r rest]; simpl; auto.
  replace (step <=? Args.num_steps args)%Z with false; auto.
  symmetry. apply Z.leb_gt. lia.
Qed.

End WorkerRuns.

(** X12. A worker goes on while the global step it fetched last is at
    most num_steps: with runs that fetch steps not above num_steps and
    then one that fetches a step g above it, the worker makes exactly
    these runs and no later one, writes (the chief only) one summary
    per run, labelled with the step fetched, and its clean-up saves one
    checkpoint, labelled g. *)
Theorem worker_runs_until_step_exceeds (w : world) (args : Args.t)
    (wavenet_params : wavenet_params_t) (logdir : string)
    (pre : list Z) (g : Z) (post : list (result Z)) :
  Args.job_name args = "worker" ->
  0 <= Args.num_steps args ->
  Forall (fun s => s <= Args.num_steps args) pre ->
  g > Args.num_steps args ->
  replica_runs w = (map Ok pre ++ Ok g :: post)%list ->
  let t := events (Distributed.distributed w args wavenet_params logdir) in
  List.length (ran_steps t) = S (List.length pre)
  /\ summary_steps t
     = (if (Args.task_index args =? 0)%Z then pre ++ [g] else [])%list
  /\ saved_steps t = [g]
  /\ outcome (Distributed.distributed w args wavenet_params logdir) = Ok tt.
Proof.
  intros Hjob Hnum Hpre Hg Hruns t.
  set (chief := (Args.task_index args =? 0)%Z).
  destruct (@while_loop_consumes args chief pre 0 Hnum Hpre)
    as (t1 & Hr & Hs & Hv & Hw).
  assert (Hloop : Distributed.while_loop args chief (replica_runs w) 0
                  = ((t1 ++ SessRun (List.last pre 0)
                         :: (if chief then [AddSummary g] else [])
                         ++ [PrintProgress g])%list, g, None)).
  { rewrite Hruns, (Hw (Ok g :: post)). cbn [Distributed.while_loop].
    assert (Hl : List.last pre 0 <= Args.num_steps args).
    { destruct pre as [|x xs]; [simpl; lia|].
      destruct (@last_error_last _ (x :: xs) 0) as [_ Hin]; [discriminate|].
      exact (proj1 (Forall_forall _ _) Hpre _ Hin). }
    apply Z.leb_le in Hl. rewrite Hl.
    rewrite (@while_loop_done args chief post g Hg).
    now rewrite app_nil_r. }
  unfold t, Distributed.distributed, Distributed.worker.
  rewrite Hjob.
  change ("worker" =? "ps") with false. change ("worker" =? "worker") with true.
  cbn iota. fold chief. rewrite Hloop.
  unfold create_inputs, save, bind, emit, ret, events, outcome.
  destruct chief, (path_exists w logdir); cbn [fst snd app];
    rewrite ?TraceFacts.ran_steps_app, ?TraceFacts.summary_steps_app,
      ?TraceFacts.saved_steps_app, ?Hs, ?Hv;
    simpl; rewrite ?TraceFacts.ran_steps_app, ?TraceFacts.summary_steps_app,
      ?TraceFacts.saved_steps_app, ?Hs, ?Hv, ?length_app, ?Hr; simpl;
    rewrite ?app_nil_r; repeat split; try lia.
Qed.

Lemma worker_runs_until_step_exceeds_witness :
  let w := quiet_world None [1; 2; 3; 4; 5] in
  let args := with_steps 2 50 (as_worker 0 default_args) in
  let t := events (Distributed.distributed w args {| sample_rate := 16000 |}
                     "./logdir/train/run") in
  List.length (ran_steps t) = 3%nat
  /\ summary_steps t = [1; 2; 3]
  /\ saved_steps t = [3].
Proof.
  intros w args t.
  assert (Hnum : 0 <= Args.num_steps args) by (simpl; lia).
  assert (Hpre : Forall (fun s => s <= Args.num_steps args) [1; 2])
    by (repeat constructor; simpl; lia).
  assert (Hg : 3 > Args.num_steps args) by (simpl; lia).
  destruct (@worker_runs_until_step_exceeds w args {| sample_rate := 16000 |}
              "./logdir/train/run" [1; 2] 3 [Ok 4; Ok 5]
              eq_refl Hnum Hpre Hg eq_refl) as (H1 & H2 & H3 & _).
  repeat split; assumption.
Defined.

(** ** The whole program *)

Section WholeProgram.
Import Standalone TraceFacts StandaloneFacts.

Variable w : world.

Lemma restored_paths_app (t t' : list event) :
  restored_paths (t ++ t') = (restored_paths t ++ restored_paths t')%list.
Proof. apply flat_map_app. Qed.

(** [validate_directories] only prints. *)
Lemma validate_directories_prints (date : string) (args : Args.t) :
  ran_steps (events (validate_directories date args)) = []
  /\ restored_paths (events (validate_directories date args)) = []
  /\ saved_steps (events (validate_directories date args)) = [].
Proof.
  unfold validate_directories, bind, emit, ret, raise.
  destruct (truthy (Args.logdir args) && truthy (Args.logdir_root args));
    [now repeat split|].
  destruct (truthy (Args.logdir args) && truthy (Args.restore_from args));
    [now repeat split|].
  destruct (Args.logdir args); now repeat split.
Qed.

(** The training loop restores nothing. *)
Lemma for_loop_restores_nothing (args : Args.t) (logdir : string)
    (steps : list Z) :
  forall l t l' e,
    for_loop w args logdir steps l = (t, l', e) -> restored_paths t = [].
Proof.
  induction steps as [|s steps IH]; intros l t l' e H; simpl in H.
  - now injection H as <- _ _.
  - assert (Hb : restored_paths (events (loop_body w args logdir s)) = []).
    { unfold loop_body, save, bind, emit, lift, ret.
      destruct (Args.store_metadata args && (s mod 50 =? 0)%Z),
        (sess_run w s) as [[]|], (Args.checkpoint_every args =? 0)%Z,
        (s mod Args.checkpoint_every args =? 0)%Z, (path_exists w logdir);
        reflexivity. }
    destruct (loop_body w args logdir s) as [tb [saved|eb]];
      unfold events in Hb; simpl in Hb.
    + match type of H with context [for_loop w args logdir steps ?l2] =>
        destruct (for_loop w args logdir steps l2) as [[t1 l1] e1] eqn:Hl end.
      injection H as <- _ _. apply IH in Hl.
      now rewrite restored_paths_app, Hb, Hl.
    + now injection H as <- _ _.
Qed.

Lemma train_restores_nothing (args : Args.t) (logdir : string)
    (saved_global_step : Z) :
  restored_paths (events (run_io (train w args logdir saved_global_step))) = [].
Proof.
  unfold run_io, events, train. cbn [fst].
  destruct (for_loop w args logdir _ _) as [[t l] e] eqn:Hf.
  apply for_loop_restores_nothing in Hf.
  destruct e as [[]|]; destruct (step l) as [s|];
    cbn [loop_events except_events finally_events];
    rewrite !restored_paths_app, Hf; try reflexivity;
    unfold save, bind, emit, events;
    destruct (s >? last_saved_step l)%Z, (path_exists w logdir); reflexivity.
Qed.

(** [restore_step] on a snapshot written at step [n]. *)
Lemma restore_step_snapshot (restore_from : string) (overwritten : bool) (n : Z) :
  0 <= n ->
  get_checkpoint_state w restore_from
  = Ok (Some (snapshot_path restore_from n)) ->
  saver_restore w (snapshot_path restore_from n) = Ok tt ->
  outcome (restore_step w restore_from overwritten)
  = Ok (if overwritten then -1 else n)
  /\ restored_paths (events (restore_step w restore_from overwritten))
     = [snapshot_path restore_from n]
  /\ ran_steps (events (restore_step w restore_from overwritten)) = [].
Proof.
  intros Hn Hc Hr.
  unfold restore_step, load, bind, emit, lift. rewrite Hc.
  rewrite (StringFacts.snapshot_step restore_from Hn), Hr. now repeat split.
Qed.

(** [standalone] once the graph is built and the restore is done. *)
Lemma standalone_after_restore (args : Args.t)
    (wavenet_params : wavenet_params_t) (logdir : string)
    (logdir_root : option string) (restore_from : string)
    (overwritten : bool) (saved_global_step : Z) :
  Args.num_gpus args <= 1 ->
  outcome (restore_step w restore_from overwritten) = Ok saved_global_step ->
  exists reader,
    events (standalone w args wavenet_params logdir logdir_root
              restore_from overwritten)
    = ([NewCoordinator; NewAudioReader reader; BuildGraph;
        NewSummaryWriter logdir; NewSession]
       ++ events (restore_step w restore_from overwritten)
       ++ [StartQueueRunners; ReaderStartThreads]
       ++ events (run_io (train w args logdir saved_global_step)))%list
    /\ outcome (standalone w args wavenet_params logdir logdir_root
                  restore_from overwritten)
       = run_outcome (train w args logdir saved_global_step).
Proof.
  intros Hg Ho. eexists.
  unfold standalone, create_inputs, get_tower, build_singlegpu.
  replace (Args.num_gpus args >? 1)%Z with false
    by (symmetry; rewrite Z.gtb_ltb; apply Z.ltb_ge; lia).
  destruct (restore_step w restore_from overwritten) as [tr rr].
  unfold outcome in Ho. simpl in Ho. subst rr.
  unfold bind, emit, ret, run_io, events, outcome. simpl.
  split; reflexivity.
Qed.

End WholeProgram.

(** X13. In a standalone run on one GPU whose directories were
    accepted and in which a snapshot of step n is found in the
    directory to restore from, [main] restores the parameters from that
    snapshot and from nothing else; its first session run is at step
    n + 1 when the log directory is the directory restored from, and at
    step 0 when it is another directory. *)
Theorem main_starts_after_restored_step (w : world) (args : Args.t)
    (wavenet_params : wavenet_params_t) (d : directories)
    (tv : list event) (n : Z) :
  Args.job_name args = STANDALONE ->
  Args.num_gpus args <= 1 ->
  validate_directories (STARTED_DATESTRING w) args = (tv, Ok d) ->
  json_load w (Args.wavenet_params args) = Ok wavenet_params ->
  0 <= n ->
  get_checkpoint_state w (dir_restore_from d)
  = Ok (Some (snapshot_path (dir_restore_from d) n)) ->
  saver_restore w (snapshot_path (dir_restore_from d) n) = Ok tt ->
  (if dir_logdir d =? dir_restore_from d then n else -1) + 1
  < Args.num_steps args ->
  restored_paths (events (main w args))
  = [snapshot_path (dir_restore_from d) n]
  /\ hd_error (ran_steps (events (main w args)))
     = Some ((if dir_logdir d =? dir_restore_from d then n else -1) + 1).
Proof.
  intros Hjob Hgpu Hv Hjson Hn Hck Hrest Hlt.
  destruct (validate_directories_prints (STARTED_DATESTRING w) args)
    as (Hvr & Hvp & _).
  rewrite Hv in Hvr, Hvp. unfold events in Hvr, Hvp. simpl in Hvr, Hvp.
  set (ow := negb (dir_logdir d =? dir_restore_from d)).
  set (saved := if dir_logdir d =? dir_restore_from d then n else -1) in *.
  destruct (@restore_step_snapshot w (dir_restore_from d) ow n Hn Hck Hrest)
    as (Ho & Hp & Hr).
  assert (Hsaved : (if ow then -1 else n) = saved).
  { unfold ow, saved. now destruct (dir_logdir d =? dir_restore_from d). }
  rewrite Hsaved in Ho.
  destruct (@standalone_after_restore w args wavenet_params (dir_logdir d)
              (dir_logdir_root d) (dir_restore_from d) ow saved Hgpu Ho)
    as (reader & He & _).
  assert (Hmain : events (main w args)
                  = (tv ++ [OpenFile (Args.wavenet_params args)]
                     ++ events (Standalone.standalone w args wavenet_params
                                  (dir_logdir d) (dir_logdir_root d)
                                  (dir_restore_from d) ow))%list).
  { unfold main. rewrite Hv, Hjson, Hjob.
    change (negb (STANDALONE =? STANDALONE)) with false. cbn iota.
    fold ow. unfold bind, emit, lift, events. simpl.
    destruct (Standalone.standalone w args wavenet_params (dir_logdir d)
                (dir_logdir_root d) (dir_restore_from d) ow) as [ts rs].
    reflexivity. }
  rewrite Hmain, He.
  destruct (train_steps w args (dir_logdir d) saved) as (k & Hk & Hpos).
  specialize (Hpos Hlt).
  pose proof (train_restores_nothing w args (dir_logdir d) saved) as Htr.
  split.
  - rewrite !restored_paths_app, Hvp, Hp, Htr. reflexivity.
  - rewrite !TraceFacts.ran_steps_app, Hvr, Hr.
    unfold Standalone.run_io, events at 1. cbn [fst].
    rewrite TraceFacts.ran_steps_app, Hk.
    rewrite StandaloneFacts.range_cons by lia. reflexivity.
Qed.

Lemma main_starts_after_restored_step_witness :
  (* weights from ./old/run at step 7, new dated log directory *)
  let w := quiet_world (Some "./old/run/model.ckpt-7") [] in
  let args := with_directories None (Some "./runs") (Some "./old/run")
                (with_steps 10 50 default_args) in
  restored_paths (events (main w args)) = ["./old/run/model.ckpt-7"]
  /\ hd_error (ran_steps (events (main w args))) = Some 0.
Proof.
  intros w args.
  assert (Hg : Args.num_gpus args <= 1) by (simpl; lia).
  assert (Hn : 0 <= 7) by lia.
  assert (Hlt : -1 + 1 < Args.num_steps args) by (simpl; lia).
  exact (@main_starts_after_restored_step w args {| sample_rate := 16000 |}
           {| dir_logdir := "./runs/train/2016-10-01T12-00-00";
              dir_logdir_root := Some "./runs";
              dir_restore_from := "./old/run" |}
           [Print "Using default logdir: ./runs/train/2016-10-01T12-00-00"]
           7 eq_refl Hg eq_refl eq_refl Hn eq_refl eq_refl Hlt).
Defined.

Lemma bind_outcome {A B} (m : io A) (f : A -> io B) :
  outcome (bind m f)
  = match outcome m with
    | Ok a => outcome (f a)
    | Raise e => Raise e
    end.
Proof.
  destruct m as [t [a|e]]; unfold bind, outcome; simpl; auto.
  now destruct (f a).
Qed.

(** ** The directories *)

(** X15. When [--restore_from] is given (not empty) and the
    directories are accepted, nothing is restored into an existing
    directory named by the user: the log directory is the dated default
    below the root, announced by a print, and the directory to restore
    from is the one given. The one exception is [--logdir] given as the
    empty string, which passes the exclusion test of line 154 and is
    taken as the log directory. *)
Theorem restore_from_goes_to_dated_logdir (date : string) (args : Args.t)
    (t : list event) (d : directories) (r : string) :
  Args.restore_from args = Some r ->
  r <> "" ->
  validate_directories date args = (t, Ok d) ->
  dir_restore_from d = r
  /\ ((Args.logdir args = None
       /\ dir_logdir d
          = get_default_logdir date
              match Args.logdir_root args with
              | Some root => root
              | None => LOGDIR_ROOT
              end
       /\ t = [Print ("Using default logdir: " ++ dir_logdir d)])
      \/ (Args.logdir args = Some "" /\ dir_logdir d = "" /\ t = [])).
Proof.
  intros Hr Hne Hv. unfold validate_directories in Hv.
  assert (Ht : truthy (Args.restore_from args) = true).
  { rewrite Hr. simpl. destruct (r =? "") eqn:E; auto.
    apply String.eqb_eq in E. contradiction. }
  rewrite Ht, andb_true_r in Hv.
  destruct (Args.logdir args) as [l|] eqn:Hl.
  - destruct (truthy (Some l)) eqn:Hl'.
    + destruct (truthy (Args.logdir_root args)); discriminate.
    + simpl in Hv. rewrite Hr in Hv. unfold bind, ret in Hv. simpl in Hv.
      injection Hv as <- <-. simpl.
      simpl in Hl'. apply negb_false_iff, String.eqb_eq in Hl'. subst l.
      split; auto.
  - simpl in Hv. rewrite Hr in Hv. unfold bind, emit, ret in Hv. simpl in Hv.
    injection Hv as <- <-. simpl. split; auto.
Qed.

Lemma restore_from_goes_to_dated_logdir_witness :
  let args := with_directories None (Some "./runs") (Some "./old/run")
                default_args in
  exists t d,
    validate_directories "2016-10-01T12-00-00" args = (t, Ok d)
    /\ dir_restore_from d = "./old/run"
    /\ dir_logdir d = "./runs/train/2016-10-01T12-00-00".
Proof.
  intros args.
  assert (Hne : "./old/run" <> "") by discriminate.
  eexists. eexists. split; [reflexivity|].
  destruct (@restore_from_goes_to_dated_logdir "2016-10-01T12-00-00" args
              _ _ "./old/run" eq_refl Hne eq_refl) as (H1 & H2).
  split; [exact H1|reflexivity].
Defined.

Section DefaultLogdir.
Import StringFacts.

Lemma append_empty (s : string) : s ++ "" = s.
Proof. induction s; simpl; congruence. Qed.

Lemma occurs_startswith (c : ascii) (s : string) :
  occurs c s = false -> startswith c s = false.
Proof.
  destruct s as [|a s]; simpl; auto. intros H.
  now apply orb_false_iff in H as [H _].
Qed.

End DefaultLogdir.

(** X16. The last component of the default log directory is the
    start time of the run, whatever the root is, so runs started at
    different times below one root get different log directories (the
    time string holding no slash, as the format of line 30 ensures). *)
Theorem default_logdir_ends_with_start_time (date logdir_root : string) :
  occurs "/" date = false ->
  last_item (split "/" (get_default_logdir date logdir_root)) = date
  /\ forall date',
       occurs "/" date' = false ->
       get_default_logdir date logdir_root
       = get_default_logdir date' logdir_root ->
       date = date'.
Proof.
  assert (H : forall dt, occurs "/" dt = false ->
                last_item (split "/" (get_default_logdir dt logdir_root)) = dt).
  { intros dt Hd. unfold get_default_logdir, path_join. cbn [fold_left].
    rewrite <- (append_empty (path_join2 _ dt)).
    rewrite StringFacts.last_item_path_join2.
    - apply append_empty.
    - now apply occurs_startswith.
    - now rewrite append_empty. }
  intros Hd. split; [now apply H|].
  intros date' Hd' E.
  rewrite <- (H date Hd), <- (H date' Hd'). now rewrite E.
Qed.

Lemma default_logdir_ends_with_start_time_witness :
  last_item (split "/" (get_default_logdir "2016-10-01T12-00-00" "./logdir"))
  = "2016-10-01T12-00-00".
Proof.
  exact (proj1 (@default_logdir_ends_with_start_time "2016-10-01T12-00-00"
                  "./logdir" eq_refl)).
Defined.

(** ** Summaries, metadata and clean-up of the standalone loop *)

Section LoopRecords.
Import Standalone TraceFacts StandaloneFacts.

Variable w : world.
Variable args : Args.t.
Variable logdir : string.





End LoopRecords.




(** ** The standalone loop when [save] and its statements can fail *)

Section FallibleLoop.
Import TraceFacts StandaloneFacts.

Variable w : world.
Variable f : Fallible.faults.
Variable args : Args.t.
Variable logdir : string.

(** What a call of [save] leaves in the trace, however it ends. *)
Lemma fallible_save_trace (o : Fallible.ending) (s : Z) :
  saved_steps (events (Fallible.save w o logdir s))
  = (if Fallible.writes w logdir o then [s] else [])
  /\ ran_steps (events (Fallible.save w o logdir s)) = []
  /\ outcome (Fallible.save w o logdir s)
     = match o with
       | Fallible.Returns => Ok tt
       | Fallible.Raises _ e => Raise e
       end
  /\ ~ In CoordRequestStop (events (Fallible.save w o logdir s))
  /\ ~ In CoordJoin (events (Fallible.save w o logdir s)).
Proof.
  unfold Fallible.save, Fallible.writes, save, bind, emit, ret, raise.
  destruct o as [|[|[|[|[|n]]]] e], (path_exists w logdir); simpl;
    rewrite ?firstn_nil; simpl; repeat split; intuition discriminate.
Qed.

Lemma In_firstn {A} (n : nat) :
  forall (l : list A) (x : A), In x (firstn n l) -> In x l.
Proof.
  induction n as [|n IH]; intros l x H; [contradiction|].
  destruct l as [|a l]; [contradiction|].
  destruct H as [<-|H]; [now left|right; now apply IH].
Qed.

Lemma flat_map_firstn_nil {A B} (g : A -> list B) (n : nat) :
  forall t, flat_map g t = [] -> flat_map g (firstn n t) = [].
Proof.
  induction n as [|n IH]; intros [|a t] H; simpl; auto.
  simpl in H. apply app_eq_nil in H as [-> H]. now apply IH.
Qed.

(** A stretch that runs no step, writes no snapshot and does not touch
    the coordinator does none of these when it is left part-way. *)
Lemma interruptible_stretch {A} (o : Fallible.ending) (m : io A) :
  ran_steps (events m) = [] ->
  saved_steps (events m) = [] ->
  ~ In CoordRequestStop (events m) ->
  ~ In CoordJoin (events m) ->
  ran_steps (events (Fallible.interruptible o m)) = []
  /\ saved_steps (events (Fallible.interruptible o m)) = []
  /\ ~ In CoordRequestStop (events (Fallible.interruptible o m))
  /\ ~ In CoordJoin (events (Fallible.interruptible o m)).
Proof.
  intros Hr Hs Hstop Hjoin. unfold Fallible.interruptible.
  destruct o as [|done e]; [now repeat split|].
  destruct (_ && _); [now repeat split|].
  unfold events at 1 3 5 7. cbn [fst].
  split; [now apply flat_map_firstn_nil|].
  split; [now apply flat_map_firstn_nil|].
  split; intros Hin; apply In_firstn in Hin; auto.
Qed.

Ltac open_stretches :=
  repeat match goal with
  | |- context [Fallible.interruptible ?o ?m] =>
      let H := fresh "Hq" in
      assert (H := @interruptible_stretch _ o m eq_refl eq_refl
                     ltac:(cbn; intuition discriminate)
                     ltac:(cbn; intuition discriminate));
      destruct (Fallible.interruptible o m) as [? [[]|?]];
      unfold events in H; cbn [fst] in H;
      destruct H as (? & ? & ? & ?)
  end.

Lemma fallible_loop_body_trace (s : Z) :
  ran_steps (events (Fallible.loop_body w f args logdir s)) = [s]
  /\ (saved_steps (events (Fallible.loop_body w f args logdir s)) = []
      \/ saved_steps (events (Fallible.loop_body w f args logdir s)) = [s])
  /\ recorded f (events (Fallible.loop_body w f args logdir s))
     = match outcome (Fallible.loop_body w f args logdir s) with
       | Ok true => [s]
       | _ => []
       end.
Proof.
  destruct (fallible_save_trace (f Fallible.Periodic s) s)
    as (Hs & Hr & Ho & _).
  unfold recorded, Fallible.loop_body.
  destruct (Fallible.save w (f Fallible.Periodic s) logdir s) as [ts os].
  unfold events, outcome in Hs, Hr, Ho. cbn [fst snd] in Hs, Hr, Ho. subst os.
  destruct (Args.store_metadata args && (s mod 50 =? 0)%Z);
    open_stretches;
    destruct (Fallible.writes w logdir (f Fallible.Periodic s)) eqn:W;
    destruct (f Fallible.Periodic s) eqn:E;
    try (simpl in W; discriminate W);
    destruct (sess_run w s) as [[]|], (Args.checkpoint_every args =? 0)%Z,
      (s mod Args.checkpoint_every args =? 0)%Z;
    unfold bind, emit, lift, ret, raise, events, outcome; cbn [fst snd];
    rewrite ?saved_steps_app, ?ran_steps_app, ?app_nil_r;
    repeat match goal with
           | H : ran_steps _ = _ |- _ => rewrite H; clear H
           | H : saved_steps _ = _ |- _ => rewrite H; clear H
           end;
    simpl; rewrite ?E; auto.
Qed.

(** The body of the loop never touches the coordinator. *)
Lemma fallible_loop_body_coordinator (s : Z) :
  ~ In CoordRequestStop (events (Fallible.loop_body w f args logdir s))
  /\ ~ In CoordJoin (events (Fallible.loop_body w f args logdir s)).
Proof.
  destruct (fallible_save_trace (f Fallible.Periodic s) s)
    as (_ & _ & _ & Hstop & Hjoin).
  unfold Fallible.loop_body.
  destruct (Fallible.save w (f Fallible.Periodic s) logdir s) as [ts os].
  unfold events in Hstop, Hjoin. cbn [fst] in Hstop, Hjoin.
  destruct (Args.store_metadata args && (s mod 50 =? 0)%Z);
    open_stretches;
    destruct (sess_run w s) as [[]|], (Args.checkpoint_every args =? 0)%Z,
      (s mod Args.checkpoint_every args =? 0)%Z, os as [[]|];
    unfold bind, emit, lift, ret, raise, events; cbn [fst snd];
    rewrite ?app_nil_r;
    split; intros Hin;
    repeat (apply in_app_or in Hin as [Hin|Hin]; auto);
    repeat (destruct Hin as [Hin|Hin]; [discriminate Hin|]); auto.
Qed.

Lemma recorded_app (t t' : list event) :
  recorded f (t ++ t') = (recorded f t ++ recorded f t')%list.
Proof. unfold recorded. now rewrite saved_steps_app, filter_app. Qed.

(** The invariant of the [for] statement: [step] is the step of the
    last session run; [last_saved_step] is the step of the last
    periodic save that returned (or its value at entry); the steps run
    are an initial part of the steps to run; the checkpoints written
    are each at a step that was run. *)
Lemma fallible_for_loop_invariant :
  forall steps l t l' e,
    Fallible.for_loop w f args logdir steps l = (t, l', e) ->
    Standalone.step l' = match last_error (ran_steps t) with
                         | Some s => Some s
                         | None => Standalone.step l
                         end
    /\ Standalone.last_saved_step l'
       = List.last (recorded f t) (Standalone.last_saved_step l)
    /\ (exists n, ran_steps t = firstn n steps
                  /\ (n <= List.length steps)%nat
                  /\ (steps <> [] -> (0 < n)%nat))
    /\ Forall (fun x => In x (ran_steps t)) (saved_steps t)
    /\ (StronglySorted Z.lt steps -> StronglySorted Z.lt (saved_steps t)).
Proof.
  induction steps as [|s steps IH]; intros l t l' e H; simpl in H.
  - injection H as <- <- <-. simpl. repeat split; auto; try constructor.
    exists 0%nat. repeat split; auto. congruence.
  - destruct (fallible_loop_body_trace s) as (Hran & Hsaved & Hrec).
    destruct (Fallible.loop_body w f args logdir s) as [tb [saved|eb]] eqn:Hb;
      unfold events, outcome in Hran, Hsaved, Hrec; simpl in Hran, Hsaved, Hrec.
    + match type of H with
      | context [Fallible.for_loop w f args logdir steps ?l2] =>
          destruct (Fallible.for_loop w f args logdir steps l2)
            as [[t1 l1] e1] eqn:Hl
      end.
      injection H as <- <- <-.
      apply IH in Hl.
      destruct Hl as (Hstep & Hlast & (n & Hn & Hle & Hpos) & Hin & Hsorted).
      rewrite ran_steps_app, saved_steps_app, recorded_app, Hran, Hrec.
      split; [|split; [|split; [|split]]].
      * rewrite Hstep. simpl app.
        destruct (ran_steps t1) as [|s1 r1] eqn:Hr1; [now destruct saved|].
        rewrite (@last_error_cons _ (s1 :: r1) s) by discriminate. reflexivity.
      * rewrite Hlast. destruct saved; simpl app; simpl Standalone.last_saved_step.
        -- now rewrite last_cons_default.
        -- reflexivity.
      * exists (S n). simpl. rewrite Hn. repeat split; auto; lia.
      * apply Forall_app. split.
        -- destruct Hsaved as [->| ->]; repeat constructor.
        -- eapply Forall_impl; [|exact Hin]. intros x Hx. now right.
      * intros Hst. apply StronglySorted_inv in Hst as [Hst Hlt].
        specialize (Hsorted Hst).
        destruct Hsaved as [->| ->]; simpl; auto.
        constructor; auto.
        apply Forall_forall. intros x Hx.
        apply (proj1 (Forall_forall _ _) Hin) in Hx.
        rewrite Hn in Hx. apply In_firstn in Hx.
        exact (proj1 (Forall_forall _ _) Hlt _ Hx).
    + injection H as <- <- <-. rewrite Hran, Hrec. simpl.
      split; [|split; [|split; [|split]]]; auto.
      * exists 1%nat. simpl. repeat split; auto; lia.
      * destruct Hsaved as [->| ->]; repeat constructor.
      * intros _. destruct Hsaved as [->| ->]; repeat constructor.
Qed.

End FallibleLoop.

Section FallibleTrain.
Import TraceFacts StandaloneFacts.

Variable w : world.
Variable f : Fallible.faults.
Variable args : Args.t.
Variable logdir : string.

(** The [finally] clause, by the way the final [save] ends. *)
Lemma finally_clause_trace (s last_saved_step : Z) :
  let c := Fallible.finally_clause w f logdir s last_saved_step in
  let called := (s >? last_saved_step)%Z in
  saved_steps (events c)
  = (if called && Fallible.writes w logdir (f Fallible.Final s)
     then [s] else [])
  /\ ran_steps (events c) = []
  /\ (if called && negb (Fallible.returns (f Fallible.Final s))
      then (exists done e', f Fallible.Final s = Fallible.Raises done e'
                            /\ outcome c = Raise e')
           /\ ~ In CoordRequestStop (events c)
           /\ ~ In CoordJoin (events c)
      else outcome c = Ok tt
           /\ (exists t_save,
                 events c = (t_save ++ [CoordRequestStop; CoordJoin])%list)
           /\ last_error (events c) = Some CoordJoin).
Proof.
  unfold Fallible.finally_clause.
  destruct (s >? last_saved_step)%Z; cbn [andb].
  - destruct (fallible_save_trace w logdir (f Fallible.Final s) s)
      as (Hs & Hr & Ho & Hstop & Hjoin).
    destruct (Fallible.save w (f Fallible.Final s) logdir s) as [ts os].
    unfold events, outcome in Hs, Hr, Ho, Hstop, Hjoin.
    simpl in Hs, Hr, Ho, Hstop, Hjoin. subst os.
    destruct (f Fallible.Final s) as [|done e'];
      unfold bind, emit, events, outcome; simpl.
    + rewrite saved_steps_app, ran_steps_app, Hs, Hr. simpl.
      repeat split; eauto.
      change (ts ++ [CoordRequestStop; CoordJoin])%list
        with (ts ++ [CoordRequestStop] ++ [CoordJoin])%list.
      rewrite app_assoc. apply last_error_snoc.
    + repeat split; eauto.
  - unfold bind, emit, ret, events, outcome. simpl.
    repeat split. now exists [].
Qed.

(** What [train] is, once the loop is known. *)
Lemma fallible_train_of_for_loop (saved_global_step s : Z) (t : list event)
    (l : Standalone.locals) (e : option exn) :
  Fallible.for_loop w f args logdir
    (range (saved_global_step + 1) (Args.num_steps args))
    {| Standalone.step := None;
       Standalone.last_saved_step := saved_global_step |} = (t, l, e) ->
  Standalone.step l = Some s ->
  let c := Fallible.finally_clause w f logdir s
             (Standalone.last_saved_step l) in
  Fallible.train w f args logdir saved_global_step
  = {| Standalone.loop_events := t;
       Standalone.except_events := match e with
                                   | Some KeyboardInterrupt => [Print ""]
                                   | _ => []
                                   end;
       Standalone.finally_events := events c;
       Standalone.final_locals := l;
       Standalone.run_outcome :=
         match outcome c with
         | Raise e' => Raise e'
         | Ok _ => match e with
                   | Some KeyboardInterrupt | None => Ok tt
                   | Some e' => Raise e'
                   end
         end |}.
Proof.
  intros Hf Hs c. unfold Fallible.train. rewrite Hf, Hs. fold c.
  destruct e as [[]|]; destruct (outcome c); reflexivity.
Qed.

Lemma fallible_train_unbound (saved_global_step : Z) (t : list event)
    (l : Standalone.locals) (e : option exn) :
  Fallible.for_loop w f args logdir
    (range (saved_global_step + 1) (Args.num_steps args))
    {| Standalone.step := None;
       Standalone.last_saved_step := saved_global_step |} = (t, l, e) ->
  Standalone.step l = None ->
  Standalone.loop_events (Fallible.train w f args logdir saved_global_step) = t
  /\ Standalone.finally_events
       (Fallible.train w f args logdir saved_global_step) = [].
Proof.
  intros Hf Hs. unfold Fallible.train. rewrite Hf, Hs.
  destruct e as [[]|]; now split.
Qed.

End FallibleTrain.

(** Where no call of [save] fails, the loop is the one of
    [Standalone]. *)
Lemma fallible_train_no_fault (w : world) (args : Args.t) (logdir : string)
    (saved_global_step : Z) :
  Fallible.train w Fallible.no_fault args logdir saved_global_step
  = Standalone.train w args logdir saved_global_step.
Proof.
  assert (Hb : forall s, Fallible.loop_body w Fallible.no_fault args logdir s
                         = Standalone.loop_body w args logdir s) by reflexivity.
  assert (Hl : forall steps l,
             Fallible.for_loop w Fallible.no_fault args logdir steps l
             = Standalone.for_loop w args logdir steps l).
  { induction steps as [|s steps IH]; intros l; simpl; auto.
    rewrite Hb. destruct (Standalone.loop_body w args logdir s) as [t [b|e]]; auto.
    now rewrite IH. }
  unfold Fallible.train, Standalone.train. rewrite Hl.
  destruct (Standalone.for_loop w args logdir _ _) as [[t l] e].
  destruct e as [[]|]; destruct (Standalone.step l) as [s|]; auto;
    unfold Fallible.finally_clause, Fallible.no_fault, Fallible.save, save,
      bind, emit, ret, events, outcome;
    destruct (s >? Standalone.last_saved_step l)%Z, (path_exists w logdir);
    reflexivity.
Qed.

Section FallibleRuns.
Import TraceFacts StandaloneFacts.

Variable w : world.
Variable f : Fallible.faults.
Variable args : Args.t.
Variable logdir : string.

Lemma sorted_firstn (n : nat) :
  forall l : list Z, StronglySorted Z.lt l -> StronglySorted Z.lt (firstn n l).
Proof.
  induction n as [|n IH]; intros l H; [constructor|].
  destruct H as [|a l Hs Hf]; simpl; constructor; auto.
  apply Forall_forall. intros x Hx. apply In_firstn in Hx.
  exact (proj1 (Forall_forall _ _) Hf _ Hx).
Qed.

Lemma sorted_filter (p : Z -> bool) (l : list Z) :
  StronglySorted Z.lt l -> StronglySorted Z.lt (filter p l).
Proof.
  induction 1 as [|a l Hs IH Hf]; simpl; [constructor|].
  destruct (p a); auto. constructor; auto.
  apply Forall_forall. intros x Hx. apply filter_In in Hx as [Hx _].
  exact (proj1 (Forall_forall _ _) Hf _ Hx).
Qed.

Lemma sorted_le_snoc (l : list Z) (s : Z) :
  StronglySorted Z.lt l -> (forall x, In x l -> x <= s) ->
  StronglySorted Z.le (l ++ [s]).
Proof.
  induction 1 as [|a l Hs IH Hf]; intros Hle; simpl.
  - repeat constructor.
  - constructor.
    + apply IH. intros x Hx. apply Hle. now right.
    + apply Forall_app. split.
      * eapply Forall_impl; [|exact Hf]. intros x Hx. simpl in Hx. lia.
      * constructor; [|constructor]. apply Hle. now left.
Qed.

Lemma sorted_lt_le (l : list Z) :
  StronglySorted Z.lt l -> StronglySorted Z.le l.
Proof.
  induction 1 as [|a l Hs IH Hf]; constructor; auto.
  eapply Forall_impl; [|exact Hf]. intros x Hx. simpl in Hx. lia.
Qed.

Lemma fallible_for_loop_coordinator :
  forall steps l t l' e,
    Fallible.for_loop w f args logdir steps l = (t, l', e) ->
    ~ In CoordRequestStop t /\ ~ In CoordJoin t.
Proof.
  induction steps as [|s steps IH]; intros l t l' e H; simpl in H.
  - injection H as <- <- <-. now split.
  - destruct (fallible_loop_body_coordinator w f args logdir s) as (Hstop & Hjoin).
    destruct (Fallible.loop_body w f args logdir s) as [tb [saved|eb]];
      unfold events in Hstop, Hjoin; simpl in Hstop, Hjoin.
    + match type of H with
      | context [Fallible.for_loop w f args logdir steps ?l2] =>
          destruct (Fallible.for_loop w f args logdir steps l2)
            as [[t1 l1] e1] eqn:Hl
      end.
      injection H as <- <- <-. apply IH in Hl as (Hs1 & Hj1).
      split; intros Hin; apply in_app_or in Hin as [Hin|Hin]; auto.
    + injection H as <- <- <-. now split.
Qed.

(** When an exception leaves the loop, [step] is bound and is greater
    than [last_saved_step]: the [finally] clause calls [save]. *)
Lemma fallible_for_loop_raised :
  forall steps l t l' e,
    StronglySorted Z.lt steps ->
    Forall (fun x => Standalone.last_saved_step l < x) steps ->
    Fallible.for_loop w f args logdir steps l = (t, l', Some e) ->
    exists s, Standalone.step l' = Some s
              /\ Standalone.last_saved_step l' < s.
Proof.
  induction steps as [|s steps IH]; intros l t l' e Hsorted Hlt H;
    simpl in H; [discriminate|].
  apply StronglySorted_inv in Hsorted as [Hsorted Hs].
  apply Forall_cons_iff in Hlt as [Hls Hlt].
  destruct (Fallible.loop_body w f args logdir s) as [tb [saved|eb]].
  - match type of H with
    | context [Fallible.for_loop w f args logdir steps ?l2] =>
        destruct (Fallible.for_loop w f args logdir steps l2)
          as [[t1 l1] e1] eqn:Hl
    end.
    injection H as <- <- ->.
    apply IH in Hl; auto.
    destruct saved; simpl; auto.
  - injection H as <- <- <-. exists s. now split.
Qed.

(** The loop stops at the first step whose body an exception leaves. *)
Lemma fallible_for_loop_stops (k : Z) (e : exn) (post : list Z) :
  outcome (Fallible.loop_body w f args logdir k) = Raise e ->
  forall pre l,
    (forall s, In s pre ->
               is_ok (outcome (Fallible.loop_body w f args logdir s)) = true) ->
    exists t l',
      Fallible.for_loop w f args logdir (pre ++ k :: post) l = (t, l', Some e)
      /\ ran_steps t = (pre ++ [k])%list.
Proof.
  intros Hk. induction pre as [|s pre IH]; intros l Hpre; simpl.
  - destruct (fallible_loop_body_trace w f args logdir k) as (Hran & _).
    destruct (Fallible.loop_body w f args logdir k) as [tb [saved|eb]];
      unfold outcome in Hk; simpl in Hk; [discriminate|].
    injection Hk as ->. eauto.
  - destruct (fallible_loop_body_trace w f args logdir s) as (Hran & _).
    pose proof (Hpre s (or_introl eq_refl)) as Hs.
    destruct (Fallible.loop_body w f args logdir s) as [tb [saved|eb]];
      unfold outcome in Hs; simpl in Hs; [|discriminate].
    match goal with
    | |- context [Fallible.for_loop w f args logdir _ ?l2] =>
        destruct (IH l2) as (t & l' & Hf & Ht)
    end.
    { intros x Hx. apply Hpre. now right. }
    rewrite Hf. exists (tb ++ t)%list, l'. split; auto.
    rewrite ran_steps_app, Ht. unfold events in Hran. simpl in Hran.
    now rewrite Hran.
Qed.

(** The run of [train], read through the invariant of its loop. *)
Lemma fallible_train_shape (saved_global_step : Z) :
  let r := Fallible.train w f args logdir saved_global_step in
  let steps := range (saved_global_step + 1) (Args.num_steps args) in
  exists (n : nat) (e : option exn),
    ran_steps (Standalone.loop_events r) = firstn n steps
    /\ (steps <> [] -> (0 < n)%nat)
    /\ Forall (fun x => In x (ran_steps (Standalone.loop_events r)))
         (saved_steps (Standalone.loop_events r))
    /\ StronglySorted Z.lt (saved_steps (Standalone.loop_events r))
    /\ (~ In CoordRequestStop (Standalone.loop_events r)
        /\ ~ In CoordJoin (Standalone.loop_events r))
    /\ Standalone.except_events r
       = match e with Some KeyboardInterrupt => [Print ""] | _ => [] end
    /\ match last_error (ran_steps (Standalone.loop_events r)) with
       | None =>
           Standalone.finally_events r = []
           /\ Standalone.run_outcome r = Raise (NameError "step")
       | Some s =>
           let last_saved_step :=
             List.last (recorded f (Standalone.loop_events r))
               saved_global_step in
           let c := Fallible.finally_clause w f logdir s last_saved_step in
           Standalone.finally_events r = events c
           /\ Standalone.run_outcome r
              = match outcome c with
                | Raise e' => Raise e'
                | Ok _ => match e with
                          | Some KeyboardInterrupt | None => Ok tt
                          | Some e' => Raise e'
                          end
                end
           /\ (e <> None -> last_saved_step < s)
       end.
Proof.
  intros r steps.
  destruct (Fallible.for_loop w f args logdir steps
              {| Standalone.step := None;
                 Standalone.last_saved_step := saved_global_step |})
    as [[t l] e] eqn:Hf.
  destruct (fallible_for_loop_invariant w f args logdir _ _ Hf)
    as (Hstep & Hlast & (n & Hn & _ & Hpos) & Hin & Hsorted).
  pose proof (fallible_for_loop_coordinator _ _ Hf) as Hcoord.
  simpl in Hstep, Hlast.
  exists n, e.
  destruct (last_error (ran_steps t)) as [s|] eqn:Hcur.
  - pose proof (@fallible_train_of_for_loop w f args logdir saved_global_step
                  s t l e Hf Hstep) as Hr.
    fold r in Hr. cbv zeta in Hr. rewrite Hr. simpl.
    rewrite Hcur, <- Hlast.
    repeat split; auto; try apply Hcoord.
    + apply Hsorted, range_sorted.
    + intros He. destruct e as [e|]; [|congruence].
      assert (Hgt : Forall (fun x => saved_global_step < x) steps).
      { apply Forall_forall. intros x Hx. apply In_range in Hx. lia. }
      destruct (@fallible_for_loop_raised steps
                  {| Standalone.step := None;
                     Standalone.last_saved_step := saved_global_step |}
                  t l e (range_sorted _ _) Hgt Hf)
        as (s' & Hs' & Hlt).
      congruence.
  - destruct (@fallible_train_unbound w f args logdir saved_global_step
                t l e Hf Hstep) as (Hl & Hfin).
    fold r in Hl, Hfin.
    assert (Hout : Standalone.run_outcome r = Raise (NameError "step")).
    { unfold r, Fallible.train. fold steps. rewrite Hf, Hstep.
      now destruct e as [[]|]. }
    assert (Hex : Standalone.except_events r
                  = match e with
                    | Some KeyboardInterrupt => [Print ""]
                    | _ => []
                    end).
    { unfold r, Fallible.train. fold steps. rewrite Hf, Hstep.
      now destruct e as [[]|]. }
    rewrite Hl, Hcur.
    repeat split; auto; try apply Hcoord.
    apply Hsorted, range_sorted.
Qed.

End FallibleRuns.

(** ** Claims on the final checkpoint *)



(** ** The standalone run, whatever fails *)

(** X9. When the body of step k is the first that an exception e
    leaves (raised by the session run, by a statement after it, by the
    modulo of a zero interval or in the periodic save), the loop has
    run the steps up to k and stops there, and the clean-up calls
    [save] for k. Where that
    save returns, a checkpoint labelled k is written, the reader threads
    are stopped and joined, a KeyboardInterrupt is swallowed after an
    empty line is printed and any other e leaves after the clean-up.
    Where an exception leaves that save, it leaves [standalone] in
    place of e, the coordinator is neither asked to stop nor joined, and
    the checkpoint of k is written only if the save got as far as the
    write. *)
Theorem failing_step_reaches_final_save (w : world) (f : Fallible.faults)
    (args : Args.t) (logdir : string) (saved_global_step k : Z) (e : exn) :
  saved_global_step < k < Args.num_steps args ->
  (forall s, saved_global_step < s < k ->
             is_ok (outcome (Fallible.loop_body w f args logdir s)) = true) ->
  outcome (Fallible.loop_body w f args logdir k) = Raise e ->
  let r := Fallible.train w f args logdir saved_global_step in
  ran_steps (Standalone.loop_events r) = range (saved_global_step + 1) (k + 1)
  /\ saved_steps (Standalone.finally_events r)
     = (if Fallible.writes w logdir (f Fallible.Final k) then [k] else [])
  /\ Standalone.except_events r
     = match e with KeyboardInterrupt => [Print ""] | _ => [] end
  /\ match f Fallible.Final k with
     | Fallible.Returns =>
         Standalone.run_outcome r
         = match e with KeyboardInterrupt => Ok tt | _ => Raise e end
         /\ last_error (Standalone.finally_events r) = Some CoordJoin
     | Fallible.Raises _ e' =>
         Standalone.run_outcome r = Raise e'
         /\ ~ In CoordRequestStop (Standalone.finally_events r)
         /\ ~ In CoordJoin (Standalone.finally_events r)
     end.
Proof.
  intros Hk Hpre Hrun r.
  destruct (@fallible_for_loop_stops w f args logdir k e
              (range (k + 1) (Args.num_steps args)) Hrun
              (range (saved_global_step + 1) k)
              {| Standalone.step := None;
                 Standalone.last_saved_step := saved_global_step |})
    as (t & l & Hf & Hran).
  { intros s Hs. apply In_range in Hs. apply Hpre. lia. }
  rewrite <- (@StandaloneFacts.range_cons k (Args.num_steps args)) in Hf by lia.
  rewrite <- (@range_app (saved_global_step + 1) k (Args.num_steps args))
    in Hf by lia.
  destruct (fallible_for_loop_invariant w f args logdir _ _ Hf)
    as (Hstep & _).
  rewrite Hran, last_error_snoc in Hstep.
  assert (Hgt : Forall (fun x => saved_global_step < x)
                  (range (saved_global_step + 1) (Args.num_steps args))).
  { apply Forall_forall. intros x Hx. apply In_range in Hx. lia. }
  destruct (@fallible_for_loop_raised w f args logdir _
              {| Standalone.step := None;
                 Standalone.last_saved_step := saved_global_step |}
              t l e (range_sorted _ _) Hgt Hf)
    as (s' & Hs' & Hlt).
  assert (s' = k) by congruence. subst s'.
  pose proof (@fallible_train_of_for_loop w f args logdir saved_global_step
                k t l (Some e) Hf Hstep) as Hr.
  fold r in Hr. cbv zeta in Hr. rewrite Hr. simpl.
  destruct (finally_clause_trace w f logdir k (Standalone.last_saved_step l))
    as (Hsaved & _ & Hend).
  assert (Hcall : (k >? Standalone.last_saved_step l)%Z = true)
    by (apply Z.gtb_gt; lia).
  rewrite Hcall in Hsaved, Hend. cbn [andb] in Hsaved, Hend.
  split; [|split; [exact Hsaved|split; [now destruct e|]]].
  - rewrite Hran, (@range_app (saved_global_step + 1) k (k + 1)) by lia.
    now rewrite range_one.
  - destruct (f Fallible.Final k) as [|done e'] eqn:Ef; simpl in Hend.
    + destruct Hend as (Hout & _ & Hlast). rewrite Hout.
      split; [now destruct e|exact Hlast].
    + destruct Hend as ((done' & e'' & [= _ <-] & Hout) & Hstop & Hjoin).
      rewrite Hout. now repeat split.
Qed.

Lemma failing_step_reaches_final_save_witness :
  let w := {| STARTED_DATESTRING := "2016-10-01T12-00-00";
              path_exists := fun _ => true;
              get_checkpoint_state := fun _ => Ok None;
              saver_restore := fun _ => Ok tt;
              json_load := fun _ => Ok {| sample_rate := 16000 |};
              compute_gradients := fun _ => [];
              sess_run := fun s => if (s =? 4)%Z
                                   then Raise (RuntimeError "session lost")
                                   else Ok tt;
              replica_runs := [] |} in
  let f := fun (site : Fallible.site) (s : Z) =>
             match site with
             | Fallible.Final =>
                 Fallible.Raises 1 (RuntimeError "session closed")
             | _ => Fallible.Returns
             end in
  let r := Fallible.train w f (with_steps 10 3 default_args)
             "./logdir/train/run" (-1) in
  ran_steps (Standalone.loop_events r) = [0; 1; 2; 3; 4]
  /\ saved_steps (Standalone.loop_events r) = [0; 3]
  /\ saved_steps (Standalone.finally_events r) = []
  /\ Standalone.run_outcome r = Raise (RuntimeError "session closed")
  /\ ~ In CoordRequestStop (Standalone.finally_events r)
  /\ ~ In CoordJoin (Standalone.finally_events r).
Proof.
  intros w f r.
  assert (Hk : -1 < 4 < Args.num_steps (with_steps 10 3 default_args))
    by (simpl; lia).
  assert (Hpre : forall s, -1 < s < 4 ->
            is_ok (outcome (Fallible.loop_body w f
                              (with_steps 10 3 default_args)
                              "./logdir/train/run" s)) = true).
  { intros s Hs.
    assert (Hc : s = 0 \/ s = 1 \/ s = 2 \/ s = 3) by lia.
    destruct Hc as [->|[->|[->| ->]]]; reflexivity. }
  destruct (@failing_step_reaches_final_save w f
              (with_steps 10 3 default_args) "./logdir/train/run" (-1) 4
              (RuntimeError "session lost") Hk Hpre eq_refl)
    as (H1 & H2 & _ & H4).
  split; [exact H1|]. split; [reflexivity|]. split; [exact H2|]. exact H4.
Defined.

(** X10. However a standalone run goes and whatever fails in it, the
    periodic checkpoints are labelled with strictly increasing steps
    and the final checkpoint with a step that is at least each of
    theirs: none is saved after a later one. A step is saved twice only
    when it is the last step started and an exception left its periodic
    save once the snapshot was written, so that [last_saved_step] was
    not assigned; in the runs where that does not happen the steps of
    all checkpoints are strictly increasing. *)
Theorem checkpoints_never_decrease (w : world) (f : Fallible.faults)
    (args : Args.t) (logdir : string) (saved_global_step : Z) :
  let r := Fallible.train w f args logdir saved_global_step in
  let periodic := saved_steps (Standalone.loop_events r) in
  let final := saved_steps (Standalone.finally_events r) in
  saved_steps (events (Standalone.run_io r)) = (periodic ++ final)%list
  /\ StronglySorted Z.lt periodic
  /\ StronglySorted Z.le (periodic ++ final)
  /\ (forall s, In s periodic -> In s final ->
                last_error (ran_steps (Standalone.loop_events r)) = Some s
                /\ Fallible.returns (f Fallible.Periodic s) = false)
  /\ ((forall s, In s periodic ->
                 Fallible.returns (f Fallible.Periodic s) = true) ->
      StronglySorted Z.lt (periodic ++ final)).
Proof.
  intros r periodic final.
  destruct (fallible_train_shape w f args logdir saved_global_step)
    as (n & e & Hn & _ & Hin & Hsorted & _ & Hex & Hfin).
  fold r in Hn, Hin, Hsorted, Hex, Hfin. fold periodic in Hin, Hsorted.
  assert (Hall : saved_steps (events (Standalone.run_io r))
                 = (periodic ++ final)%list).
  { unfold Standalone.run_io, events. cbn [fst].
    rewrite !TraceFacts.saved_steps_app, Hex.
    now destruct e as [[]|]. }
  assert (Hran : StronglySorted Z.lt (ran_steps (Standalone.loop_events r))).
  { rewrite Hn. apply sorted_firstn, range_sorted. }
  assert (Hshape :
            final = []
            \/ exists s,
                 final = [s]
                 /\ last_error (ran_steps (Standalone.loop_events r)) = Some s
                 /\ List.last (recorded f (Standalone.loop_events r))
                      saved_global_step < s
                 /\ forall x, In x periodic -> x <= s).
  { destruct (last_error (ran_steps (Standalone.loop_events r))) as [s|] eqn:Hcur.
    - cbv zeta in Hfin. destruct Hfin as (Hev & _).
      pose proof (proj1 (finally_clause_trace w f logdir s
                           (List.last (recorded f (Standalone.loop_events r))
                              saved_global_step))) as Hs.
      rewrite <- Hev in Hs. fold final in Hs.
      destruct (s >? _)%Z eqn:E; [|now left].
      destruct (Fallible.writes w logdir (f Fallible.Final s)); [|now left].
      right. exists s. apply Z.gtb_gt in E. repeat split; auto; try lia.
      intros x Hx.
      apply (proj1 (Forall_forall _ _) Hin) in Hx.
      assert (Hne : ran_steps (Standalone.loop_events r) <> [])
        by (intros H0; rewrite H0 in Hcur; discriminate).
      destruct (@last_error_last _ _ 0 Hne) as (Hl & _).
      rewrite Hcur in Hl. injection Hl as ->.
      now apply sorted_below_last.
    - destruct Hfin as (Hev & _). left. unfold final. now rewrite Hev. }
  assert (Htwice : forall s, In s periodic -> In s final ->
             last_error (ran_steps (Standalone.loop_events r)) = Some s
             /\ Fallible.returns (f Fallible.Periodic s) = false).
  { intros s Hp Hf.
    destruct Hshape as [H0|(s' & Hs' & Hcur & Hgt & _)];
      [rewrite H0 in Hf; contradiction|].
    rewrite Hs' in Hf. destruct Hf as [<-|[]]. split; [exact Hcur|].
    destruct (Fallible.returns (f Fallible.Periodic s')) eqn:Hret; auto.
    exfalso.
    assert (Hrec : In s' (recorded f (Standalone.loop_events r))).
    { unfold recorded. apply filter_In. now split. }
    pose proof (@sorted_below_last
                  (recorded f (Standalone.loop_events r)) saved_global_step
                  (sorted_filter _ Hsorted) s' Hrec).
    lia. }
  split; [exact Hall|]. split; [exact Hsorted|].
  split; [|split; [exact Htwice|]].
  - destruct Hshape as [->|(s & -> & _ & _ & Hle)].
    + rewrite app_nil_r. now apply sorted_lt_le.
    + now apply sorted_le_snoc.
  - intros Hret.
    destruct Hshape as [->|(s & Hs & _ & _ & Hle)].
    + now rewrite app_nil_r.
    + rewrite Hs. apply sorted_snoc; [exact Hsorted|].
      intros x Hx. specialize (Hle x Hx).
      assert (x <> s).
      { intros ->. destruct (Htwice s Hx) as (_ & Hno).
        - rewrite Hs. now left.
        - rewrite (Hret s Hx) in Hno. discriminate. }
      lia.
Qed.


